(** * Ext.direct.Manager and the deprecated Ext.EventManager shim

    A shallow embedding of [touch/src/direct/Manager.js] and of the
    deprecated [Ext.EventManager] object, with the properties their
    specification states about them.

    JavaScript objects that the Manager only holds and passes around
    (providers, transactions, events) are handles with an identity; the
    mutable part of a provider lives in a store shared by every holder of
    the handle.  Calls that leave the Manager (on a provider, on the
    class system, on the observable mixin) are appended to a call log, so
    that "invokes" and "does not invoke" are statements about that log. *)

From Stdlib Require Import Ascii String ZArith.
From stdpp Require Import base strings list gmap.
From Equations Require Import Equations.

Set Default Proof Using "Type".
Set Warnings "-register-all".
Open Scope string_scope.
Open Scope list_scope.

(** ** JavaScript values that may be absent *)

(** A reference that may also be [undefined] or [null]; the two are kept
    apart because the code returns one or the other on purpose. *)
Inductive js (A : Type) : Type :=
| undefined
| null
| some (a : A).
Arguments undefined {A}.
Arguments null {A}.
Arguments some {A} a.

(** Truthiness of a string that may be absent: the empty string is falsy. *)
Definition truthy_str (v : js string) : bool :=
  match v with
  | some s => if decide (s = EmptyString) then false else true
  | _ => false
  end.

Global Instance js_eq_dec {A} `{EqDecision A} : EqDecision (js A).
Proof. solve_decision. Defined.

(** ** Objects with an id *)

(** The interface [getKey] relies on: [item.getId()]. *)
Class Identified (A : Type) := getId : A -> string.

(** ** Ext.util.Collection *)

Module Collection.
Section Collection.
Context {A : Type} `{EqDecision A}.

(** Modelled from the spec: Ext.util.Collection, whose source is not
    part of the two files.  The spec calls it a simple keyed registry,
    keyed by an externally supplied identifier, with key uniqueness as
    its only invariant.  It is created with the key function; the
    entries are kept in insertion order. *)
Record t := Make {
  keyFn : A -> string;
  entries : list (string * A)
}.

Definition create (getKey : A -> string) : t :=
  {| keyFn := getKey; entries := [] |}.

Definition keys (c : t) : list string := (entries c).*1.
Definition items (c : t) : list A := (entries c).*2.

Fixpoint lookup_entry (k : string) (l : list (string * A)) : js A :=
  match l with
  | [] => undefined
  | (k', x) :: l' => if decide (k' = k) then some x else lookup_entry k l'
  end.

Fixpoint replace_entry (k : string) (x : A) (l : list (string * A))
  : list (string * A) :=
  match l with
  | [] => []
  | (k', y) :: l' =>
      if decide (k' = k) then (k, x) :: l'
      else (k', y) :: replace_entry k x l'
  end.

(** Modelled from the spec: [get(key)], the item stored under the key,
    [undefined] when there is none. *)
Definition get (k : string) (c : t) : js A := lookup_entry k (entries c).

(** Modelled from the spec: [add(item)].  The key is computed by the key
    function; an item whose key is already present takes the place of
    the old one, which is what keeps keys unique. *)
Definition add (x : A) (c : t) : t :=
  let k := keyFn c x in
  {| keyFn := keyFn c;
     entries := if decide (k ∈ keys c)
                then replace_entry k x (entries c)
                else entries c ++ [(k, x)] |}.

(** Modelled from the spec: [remove(item)].  The item is found by
    identity; removing something that is not stored ([undefined]
    included) changes nothing. *)
Definition remove (v : js A) (c : t) : t :=
  match v with
  | some x =>
      {| keyFn := keyFn c;
         entries := filter (λ e, e.2 ≠ x) (entries c) |}
  | _ => c
  end.

(** The two properties a well-formed collection has. *)
Definition unique_keys (c : t) : Prop := NoDup (keys c).
Definition keyed_by (getKey : A -> string) (c : t) : Prop :=
  keyFn c = getKey ∧ Forall (λ e, e.1 = getKey e.2) (entries c).
End Collection.
Arguments t : clear implicits.
End Collection.

(** ** The objects the Manager handles *)

(** A provider instance (an object whose [isProvider] is true): its
    identity and the id [getId()] answers.  Its mutable part is in the
    store below. *)
Record Provider := { provider_oid : nat; provider_id : string }.

(** A transaction: an object with an id. *)
Record Transaction := { transaction_oid : nat; transaction_id : string }.

(** A config object handed to [addProvider] in place of an instance:
    [isProvider] is absent, [type] selects the class to instantiate. *)
Record ProviderConfig := { type : string; config_id : string; url : string }.

Global Instance Provider_eq_dec : EqDecision Provider.
Proof. solve_decision. Defined.
Global Instance Transaction_eq_dec : EqDecision Transaction.
Proof. solve_decision. Defined.
Global Instance ProviderConfig_eq_dec : EqDecision ProviderConfig.
Proof. solve_decision. Defined.

Global Instance Provider_Identified : Identified Provider := provider_id.
Global Instance Transaction_Identified : Identified Transaction := transaction_id.

(** What [addProvider] accepts: "an instance or config object". *)
Inductive ProviderDescription :=
| Instance (p : Provider)
| Config (c : ProviderConfig).

(** What [getProvider] and [removeProvider] accept: "the provider instance
    or the id of the provider".  A string has no [isProvider]. *)
Inductive ProviderRef :=
| ProviderId (id : string)
| ProviderInstance (p : Provider).

(** What [getTransaction] and [removeTransaction] accept: "the
    transaction/id of transaction". *)
Inductive TransactionRef :=
| TransactionId (id : string)
| TransactionInstance (t : Transaction).

(** An event a provider delivers ([Ext.direct.Event]): what [getName()]
    and [getStatus()] answer. *)
Record DirectEvent := {
  event_oid : nat;
  getName : js string;
  getStatus : js bool
}.

Global Instance DirectEvent_eq_dec : EqDecision DirectEvent.
Proof. solve_decision. Defined.

(** The second argument of [onProviderData]: one event, or an array whose
    elements are again such arguments. *)
Inductive EventData :=
| Single (e : DirectEvent)
| Multiple (l : list EventData).

(** ** The observable mixin and the call log *)

(** A listener function and the scope it is registered with. *)
Inductive Handler := Manager_onProviderData | other_handler (n : nat).
Inductive Scope := Manager_scope | other_scope (n : nat).

Global Instance Handler_eq_dec : EqDecision Handler.
Proof. solve_decision. Defined.
Global Instance Scope_eq_dec : EqDecision Scope.
Proof. solve_decision. Defined.

Record Listener := {
  listener_event : string;
  listener_fn : Handler;
  listener_scope : Scope
}.

Global Instance Listener_eq_dec : EqDecision Listener.
Proof. solve_decision. Defined.

(** An argument passed along with a fired event. *)
Inductive FireArg :=
| arg_event (e : DirectEvent)
| arg_provider (p : Provider).

Global Instance FireArg_eq_dec : EqDecision FireArg.
Proof. solve_decision. Defined.

(** The calls the Manager makes on its collaborators. *)
Inductive Call :=
| call_create (alias : string) (c : ProviderConfig)
| call_on (p : Provider) (l : Listener)
| call_un (p : Provider) (l : Listener)
| call_isConnected (p : Provider)
| call_connect (p : Provider)
| call_fireEvent (name : string) (args : list FireArg).

Global Instance Call_eq_dec : EqDecision Call.
Proof. solve_decision. Defined.

(** The mutable part of a provider object. *)
Record ProviderState := {
  connected : bool;
  listeners : list Listener
}.

(** A provider nobody has touched yet. *)
Definition fresh_provider : ProviderState :=
  {| connected := false; listeners := [] |}.

(** ** The state of the program *)

Record World := {
  transactions : Collection.t Transaction;
  providers : Collection.t Provider;
  store : gmap nat ProviderState;
  created : nat;
  calls : list Call
}.

Definition state_of (w : World) (p : Provider) : ProviderState :=
  default fresh_provider (store w !! provider_oid p).

(** ** Computations that change the world and may throw *)

Inductive exn :=
| TypeError (what : string)
| ClassNotFound (alias : string)
| Thrown (what : string).

Definition M (A : Type) : Type := World -> World * (exn + A).

Definition ret {A} (a : A) : M A := λ w, (w, inr a).
Definition throw {A} (e : exn) : M A := λ w, (w, inl e).
Definition bind {A B} (m : M A) (k : A -> M B) : M B :=
  λ w, match m w with
       | (w', inr a) => k a w'
       | (w', inl e) => (w', inl e)
       end.
Definition gets {A} (f : World -> A) : M A := λ w, (w, inr (f w)).
Definition modify (f : World -> World) : M unit := λ w, (f w, inr tt).

Declare Scope js_scope.
Delimit Scope js_scope with js.
Notation "x <- m ;; k" := (bind m (λ x, k))
  (at level 100, m at next level, right associativity) : js_scope.
Notation "m ;; k" := (bind m (λ _, k))
  (at level 100, right associativity) : js_scope.
Open Scope js_scope.

(** [for (i = 0; i < ln; ++i) body(l[i])] *)
Definition for_each {A} (body : A -> M unit) : list A -> M unit :=
  fix loop (l : list A) : M unit :=
    match l with
    | [] => ret tt
    | a :: l' => body a ;; loop l'
    end.

(** The world after a computation, and what it returned or threw. *)
Definition exec {A} (m : M A) (w : World) : World := (m w).1.
Definition result {A} (m : M A) (w : World) : exn + A := (m w).2.

(** Appending to the call log. *)
Definition add_calls (cs : list Call) (w : World) : World :=
  {| transactions := transactions w; providers := providers w;
     store := store w; created := created w; calls := calls w ++ cs |}.

Definition log (c : Call) : M unit := modify (add_calls [c]).

(** The calls a computation appends to the log of the world it starts in. *)
Definition new_calls {A} (m : M A) (w : World) : list Call :=
  drop (length (calls w)) (calls (exec m w)).

Definition set_state (p : Provider) (s : ProviderState) : M unit :=
  modify (λ w, {| transactions := transactions w; providers := providers w;
                  store := <[provider_oid p := s]> (store w);
                  created := created w; calls := calls w |}).

Definition set_providers (c : Collection.t Provider) : M unit :=
  modify (λ w, {| transactions := transactions w; providers := c;
                  store := store w; created := created w; calls := calls w |}).

Definition set_transactions (c : Collection.t Transaction) : M unit :=
  modify (λ w, {| transactions := c; providers := providers w;
                  store := store w; created := created w; calls := calls w |}).

(** Modelled from the spec: the observable mixin's [on] and [un] on a
    provider ("an observable-pattern mixin supplied by the framework"):
    [on] registers the listener, [un] takes it off again. *)
Definition on (p : Provider) (ev : string) (fn : Handler) (sc : Scope) : M unit :=
  let l := {| listener_event := ev; listener_fn := fn; listener_scope := sc |} in
  log (call_on p l) ;;
  s <- gets (λ w, state_of w p) ;;
  set_state p {| connected := connected s; listeners := listeners s ++ [l] |}.

Definition un (p : Provider) (ev : string) (fn : Handler) (sc : Scope) : M unit :=
  let l := {| listener_event := ev; listener_fn := fn; listener_scope := sc |} in
  log (call_un p l) ;;
  s <- gets (λ w, state_of w p) ;;
  set_state p {| connected := connected s;
                 listeners := filter (λ l', l' ≠ l) (listeners s) |}.

(** The mixin's [fireEvent] on the Manager itself: the Manager's part ends
    with the call. *)
Definition fireEvent (name : string) (args : list FireArg) : M unit :=
  log (call_fireEvent name args).

(** [provider.isConnected()] *)
Definition isConnected (p : Provider) : M bool :=
  log (call_isConnected p) ;;
  gets (λ w, connected (state_of w p)).

(** ** Ext.direct.Manager *)

(** What the Manager takes from the framework around it: the class system
    behind [Ext.create] (the alias, the config and the number of objects
    created so far give the new instance, or nothing when no class answers
    to the alias), and whether a provider reports to be connected once its
    [connect()] has run. *)
Class Framework := {
  Ext_create : string -> ProviderConfig -> nat -> option Provider;
  connects : Provider -> bool
}.

Module Manager.
Section Manager.
Context {F : Framework}.

(** [getKey: function(item) { return item.getId(); }] *)
Definition getKey {A} `{Identified A} (item : A) : string := getId item.

(** [constructor]: two empty collections keyed by [getKey].  The
    providers of the application exist before the Manager hears of them,
    so their store is given. *)
Definition constructor (objects : gmap nat ProviderState) : World :=
  {| transactions := Collection.create getKey;
     providers := Collection.create getKey;
     store := objects;
     created := 0;
     calls := [] |}.

(** [Ext.create('direct.' + provider.type + 'provider', provider)] *)
Definition create_provider (c : ProviderConfig) : M Provider :=
  let alias := "direct." +:+ type c +:+ "provider" in
  log (call_create alias c) ;;
  n <- gets created ;;
  match Ext_create alias c n with
  | Some p =>
      modify (λ w, {| transactions := transactions w; providers := providers w;
                      store := store w; created := S (created w);
                      calls := calls w |}) ;;
      ret p
  | None => throw (ClassNotFound alias)
  end.

(** [provider.connect()] *)
Definition connect (p : Provider) : M unit :=
  log (call_connect p) ;;
  s <- gets (λ w, state_of w p) ;;
  set_state p {| connected := connects p; listeners := listeners s |}.

(** The body of [addProvider] once it is known to have one argument. *)
Definition addProvider_one (d : ProviderDescription) : M (js Provider) :=
  (* if provider has not already been instantiated *)
  provider <- (match d with
               | Instance p => ret p
               | Config c => create_provider c
               end) ;;
  c <- gets providers ;;
  set_providers (Collection.add provider c) ;;
  on provider "data" Manager_onProviderData Manager_scope ;;
  isc <- isConnected provider ;;
  (if negb isc then connect provider else ret tt) ;;
  ret (some provider).

Equations addProvider (args : list ProviderDescription) : M (js Provider)
  by wf (length args) lt :=
addProvider args with decide (1 < length args) := {
  | left _ =>
      for_each (λ a, addProvider [a] ;; ret tt) args ;;
      ret undefined
  | right _ with args := {
      | [] => throw (TypeError "provider is undefined")
      | provider :: _ => addProvider_one provider } }.

(** [getProvider] *)
Definition getProvider (id : ProviderRef) : M (js Provider) :=
  match id with
  | ProviderInstance p => ret (some p)
  | ProviderId k => c <- gets providers ;; ret (Collection.get k c)
  end.

(** [removeProvider] *)
Definition removeProvider (r : ProviderRef) : M (js Provider) :=
  provider <- (match r with
               | ProviderInstance p => ret (some p)
               | ProviderId k => c <- gets providers ;; ret (Collection.get k c)
               end) ;;
  match provider with
  | some p =>
      un p "data" Manager_onProviderData Manager_scope ;;
      c <- gets providers ;;
      set_providers (Collection.remove (some p) c) ;;
      ret (some p)
  | _ => ret null
  end.

(** [addTransaction] *)
Definition addTransaction (transaction : Transaction) : M Transaction :=
  c <- gets transactions ;;
  set_transactions (Collection.add transaction c) ;;
  ret transaction.

(** [getTransaction] *)
Definition getTransaction (r : TransactionRef) : M (js Transaction) :=
  match r with
  | TransactionInstance t => ret (some t)
  | TransactionId k => c <- gets transactions ;; ret (Collection.get k c)
  end.

(** [removeTransaction] *)
Definition removeTransaction (r : TransactionRef) : M (js Transaction) :=
  transaction <- getTransaction r ;;
  c <- gets transactions ;;
  set_transactions (Collection.remove transaction c) ;;
  ret transaction.

(** [name != s] for a name that may be absent. *)
Definition differs (name : js string) (s : string) : bool :=
  match name with
  | some n => if decide (n = s) then false else true
  | _ => true
  end.

(** The string a truthy name holds. *)
Definition name_of (name : js string) : string :=
  match name with some n => n | _ => EmptyString end.

(** [getStatus() === false] *)
Definition is_false (v : js bool) : bool :=
  match v with some false => true | _ => false end.

(** [onProviderData] *)
Fixpoint onProviderData (provider : Provider) (event : EventData) : M unit :=
  match event with
  | Multiple l => for_each (onProviderData provider) l
  | Single e =>
      let name := getName e in
      (if truthy_str name && differs name "event" && differs name "exception"
       then fireEvent (name_of name) [arg_event e]
       else if is_false (getStatus e)
            then fireEvent "exception" [arg_event e]
            else ret tt) ;;
      fireEvent "event" [arg_event e; arg_provider provider]
  end.

(** *** Notions the properties are stated with *)

(** The listener [addProvider] registers and [removeProvider] takes off:
    [('data', me.onProviderData, me)]. *)
Definition data_listener : Listener :=
  {| listener_event := "data";
     listener_fn := Manager_onProviderData;
     listener_scope := Manager_scope |}.

(** The provider a description stands for in a world: the instance
    itself, or the one the class system makes from the config. *)
Definition instantiated (d : ProviderDescription) (w : World) : option Provider :=
  match d with
  | Instance p => Some p
  | Config c => Ext_create ("direct." +:+ type c +:+ "provider") c (created w)
  end.

(** The call to the class system a description causes. *)
Definition creation (d : ProviderDescription) : list Call :=
  match d with
  | Instance _ => []
  | Config c => [call_create ("direct." +:+ type c +:+ "provider") c]
  end.

(** One single-argument call of [addProvider] after the other, as an
    application would write them; a call that throws ends the run. *)
Fixpoint one_call_each (args : list ProviderDescription) (w : World)
  : World * option exn :=
  match args with
  | [] => (w, None)
  | a :: args' =>
      match addProvider [a] w with
      | (w', inr _) => one_call_each args' w'
      | (w', inl e) => (w', Some e)
      end
  end.

(** The events of an [onProviderData] argument, in array order. *)
Fixpoint events_of (event : EventData) : list DirectEvent :=
  match event with
  | Single e => [e]
  | Multiple l => flat_map events_of l
  end.

(** Is the call a [fireEvent] of the given name? *)
Definition fires (name : string) (c : Call) : bool :=
  match c with
  | call_fireEvent n _ => bool_decide (n = name)
  | _ => false
  end.

(** The operations that touch the two collections. *)
Inductive Operation :=
| op_addProvider (args : list ProviderDescription)
| op_removeProvider (r : ProviderRef)
| op_addTransaction (t : Transaction)
| op_removeTransaction (r : TransactionRef).

Definition perform (o : Operation) (w : World) : World :=
  match o with
  | op_addProvider args => exec (addProvider args) w
  | op_removeProvider r => exec (removeProvider r) w
  | op_addTransaction t => exec (addTransaction t) w
  | op_removeTransaction r => exec (removeTransaction r) w
  end.

(** The world after a run of operations. *)
Definition perform_all (ops : list Operation) (w : World) : World :=
  foldl (λ w o, perform o w) w ops.

(** Both collections are keyed by [getId()] and hold no key twice. *)
Definition invariant (w : World) : Prop :=
  Collection.keyed_by getKey (transactions w)
  ∧ Collection.unique_keys (transactions w)
  ∧ Collection.keyed_by getKey (providers w)
  ∧ Collection.unique_keys (providers w).

(** What a computation leaves of the invariant. *)
Definition preserves {A} (m : M A) : Prop :=
  ∀ w, invariant w -> invariant (exec m w).

(** A computation that leaves both collections alone. *)
Definition keeps_collections {A} (m : M A) : Prop :=
  ∀ w, transactions (exec m w) = transactions w
       ∧ providers (exec m w) = providers w.

(** A name that does not divert an event from the 'exception' branch:
    absent or empty, 'event' or 'exception'. *)
Definition plain_name (name : js string) : Prop :=
  truthy_str name = false ∨ name = some "event" ∨ name = some "exception".
End Manager.
End Manager.

(** ** Manager.parseMethod *)

(** The values a walk from [window] can meet.  Functions and objects are
    known by their identity; [v_nan] is the number that is not one. *)
Inductive value :=
| v_undefined
| v_null
| v_boolean (b : bool)
| v_number (n : Z)
| v_nan
| v_string (s : string)
| v_function (f : nat)
| v_object (o : nat).

Global Instance value_eq_dec : EqDecision value.
Proof. solve_decision. Defined.

(** The global object and property access [o[name]] on a value that can
    have properties.  The read answers with a value, [v_undefined] when
    there is no such property, or it raises: a getter, a proxy or a host
    object may run code of its own.  Primitive values answer too, through
    their prototype. *)
Class Globals := {
  window : value;
  member : value -> string -> exn + value
}.

(** What [parseMethod] accepts: "String/Function". *)
Inductive DirectFn :=
| fn_string (s : string)
| fn_function (f : nat).

Module Direct.
Section Direct.
Context {G : Globals}.

(** Truthiness, as [&&] and [||] test it. *)
Definition truthy (v : value) : bool :=
  match v with
  | v_undefined | v_null | v_nan => false
  | v_boolean b => b
  | v_number n => if decide (n = 0%Z) then false else true
  | v_string s => if decide (s = EmptyString) then false else true
  | v_function _ | v_object _ => true
  end.

(** [Ext.isFunction] *)
Definition Ext_isFunction (v : value) : bool :=
  match v with v_function _ => true | _ => false end.

(** [current[part]]: reading a property of [undefined] or [null] throws;
    on any other value the read answers or raises as the value has it. *)
Definition get_member (current : value) (part : string) : exn + value :=
  match current with
  | v_undefined | v_null => inl (TypeError "cannot read property")
  | _ => member current part
  end.

(** [fn.split('.')]: the pieces between the dots, empty pieces kept. *)
Fixpoint split (s : string) : list string :=
  match s with
  | EmptyString => [EmptyString]
  | String c s' =>
      if decide (c = "."%char) then EmptyString :: split s'
      else match split s' with
           | [] => [String c EmptyString]
           | part :: parts => String c part :: parts
           end
  end.

(** [while (current && i < ln) { current = current[parts[i]]; ++i; }]
    with [parts] the pieces from index [i] on. *)
Fixpoint walk (current : value) (parts : list string) : exn + value :=
  match parts with
  | [] => inr current
  | part :: parts' =>
      if truthy current then
        match get_member current part with
        | inr next => walk next parts'
        | inl e => inl e
        end
      else inr current
  end.

(** [parseMethod] *)
Definition parseMethod (fn : DirectFn) : exn + value :=
  let parsed :=
    match fn with
    | fn_string s =>
        match walk window (split s) with
        | inr current => inr (if Ext_isFunction current then current else v_null)
        | inl e => inl e
        end
    | fn_function f => inr (v_function f)
    end in
  match parsed with
  | inr fn' => inr (if truthy fn' then fn' else v_null)
  | inl e => inl e
  end.

(** The path as the specification reads it: the value [window.a.b.c]
    names.  There is none when a segment is missing, that is when the
    value reached before it is [undefined] or [null], and none when a read
    on the way raises. *)
Fixpoint path_value (from : value) (parts : list string) : option value :=
  match parts with
  | [] => Some from
  | part :: parts' =>
      match from with
      | v_undefined | v_null => None
      | _ => match member from part with
             | inr next => path_value next parts'
             | inl _ => None
             end
      end
  end.

(** The values met on the way, the last one left out; the way ends where
    a read raises. *)
Fixpoint values_before (from : value) (parts : list string) : list value :=
  match parts with
  | [] => []
  | part :: parts' =>
      from :: match member from part with
              | inr next => values_before next parts'
              | inl _ => []
              end
  end.

(** [parseMethod] as the specification states it: the value the path
    names when it is a function, [null] when a segment is missing or the
    value is not a function; a function is handed back. *)
Definition parseMethod_spec (fn : DirectFn) : value :=
  match fn with
  | fn_function f => v_function f
  | fn_string s =>
      match path_value window (split s) with
      | Some v => if Ext_isFunction v then v else v_null
      | None => v_null
      end
  end.
End Direct.
End Direct.

(** ** Ext.EventManager *)

Module EventManager.
Section EventManager.
(** Elements, and whatever is passed as handler, scope and options; the
    shim looks into none of them. *)
Context {element arg : Type}.

(** What a call is made on. *)
Inductive Target :=
| on_element (el : element)
| Ext_Viewport
| Ext_get (el : element).

(** The calls the shim makes. *)
Inductive Effect :=
| Logger_deprecate (message : string) (level : nat)
| call_on (t : Target) (eventName : string) (fn scope options : arg)
| call_un (t : Target) (eventName : string) (args : list arg)
| call_clearListeners (t : Target).

(** [addListener] *)
Definition addListener (el : element) (eventName : string)
    (fn scope options : arg) : list Effect :=
  [ Logger_deprecate "Ext.EventManager.addListener is deprecated, use addListener() directly from an instance of Ext.Element instead" 2;
    call_on (on_element el) eventName fn scope options ].

(** [removeListener] *)
Definition removeListener (el : element) (eventName : string)
    (fn scope : arg) : list Effect :=
  [ Logger_deprecate "Ext.EventManager.removeListener is deprecated, use removeListener() directly from an instance of Ext.Element instead" 2;
    call_un (on_element el) eventName [fn; scope] ].

(** [removeAll] *)
Definition removeAll (el : element) : list Effect :=
  [ Logger_deprecate "Ext.EventManager.removeAll is deprecated, use clearListeners() directly from an instance of Ext.Element instead" 3;
    call_clearListeners (Ext_get el) ].

(** [onDocumentReady] *)
Definition onDocumentReady : list Effect :=
  [ Logger_deprecate "Ext.EventManager.onDocumentReady has been removed, please use Ext.onReady instead" 3 ].

(** [onWindowResize] *)
Definition onWindowResize (fn scope options : arg) : list Effect :=
  [ Logger_deprecate "Ext.EventManager.onWindowResize is deprecated, attach listener to Ext.Viewport instead, i.e: Ext.Viewport.on('resize', ...)" 2;
    call_on Ext_Viewport "resize" fn scope options ].

(** [onOrientationChange] *)
Definition onOrientationChange (fn scope options : arg) : list Effect :=
  [ Logger_deprecate "Ext.EventManager.onOrientationChange is deprecated, attach listener to Ext.Viewport instead, i.e: Ext.Viewport.on('orientationchange', ...)" 2;
    call_on Ext_Viewport "orientationchange" fn scope options ].

(** [unOrientationChange] *)
Definition unOrientationChange (fn scope options : arg) : list Effect :=
  [ Logger_deprecate "Ext.EventManager.unOrientationChange is deprecated, remove listener from Ext.Viewport instead, i.e: Ext.Viewport.un('orientationchange', ...)" 2;
    call_un Ext_Viewport "orientationchange" [fn; scope; options] ].

(** [Ext.EventManager.on = Ext.EventManager.addListener] *)
Definition on := addListener.

(** [Ext.EventManager.un = Ext.EventManager.removeListener] *)
Definition un := removeListener.

(** The operations of the object, each with its arguments. *)
Inductive Operation :=
| op_addListener (el : element) (eventName : string) (fn scope options : arg)
| op_removeListener (el : element) (eventName : string) (fn scope : arg)
| op_removeAll (el : element)
| op_onDocumentReady
| op_onWindowResize (fn scope options : arg)
| op_onOrientationChange (fn scope options : arg)
| op_unOrientationChange (fn scope options : arg)
| op_on (el : element) (eventName : string) (fn scope options : arg)
| op_un (el : element) (eventName : string) (fn scope : arg).

Definition run (o : Operation) : list Effect :=
  match o with
  | op_addListener el n f s opt => addListener el n f s opt
  | op_removeListener el n f s => removeListener el n f s
  | op_removeAll el => removeAll el
  | op_onDocumentReady => onDocumentReady
  | op_onWindowResize f s opt => onWindowResize f s opt
  | op_onOrientationChange f s opt => onOrientationChange f s opt
  | op_unOrientationChange f s opt => unOrientationChange f s opt
  | op_on el n f s opt => on el n f s opt
  | op_un el n f s => un el n f s
  end.

(** What is left of an operation once the debug logging is taken out. *)
Definition is_logging (e : Effect) : bool :=
  match e with Logger_deprecate _ _ => true | _ => false end.

Definition outside_logging (l : list Effect) : list Effect :=
  List.filter (λ e, negb (is_logging e)) l.

(** The toolkit's own calls, as an application would write them. *)
Definition el_on (el : element) (eventName : string) (fn scope options : arg)
  : list Effect := [call_on (on_element el) eventName fn scope options].
Definition el_un (el : element) (eventName : string) (fn scope : arg)
  : list Effect := [call_un (on_element el) eventName [fn; scope]].
Definition Viewport_on (eventName : string) (fn scope options : arg)
  : list Effect := [call_on Ext_Viewport eventName fn scope options].
Definition Viewport_un (eventName : string) (fn scope options : arg)
  : list Effect := [call_un Ext_Viewport eventName [fn; scope; options]].

(** A registration call on the event system: [on] or [un] on an element
    or on the viewport. *)
Definition is_registration (e : Effect) : bool :=
  match e with
  | call_on (on_element _) _ _ _ _ | call_on Ext_Viewport _ _ _ _ => true
  | call_un (on_element _) _ _ | call_un Ext_Viewport _ _ => true
  | _ => false
  end.

(** An operation is a pure forward when, logging apart, it is one
    registration call on the event system. *)
Definition pure_forward (o : Operation) : Prop :=
  ∃ e, outside_logging (run o) = [e] ∧ is_registration e = true.
End EventManager.
Arguments Target : clear implicits.
Arguments Effect : clear implicits.
Arguments Operation : clear implicits.
End EventManager.

(** ** Sample inputs *)

Module Sample.
(** A class system that knows the polling provider only, and providers
    that report to be connected once [connect()] has run. *)
Definition polling_only : Framework :=
  {| Ext_create := λ alias c n,
       if decide (alias = "direct.pollingprovider")
       then Some {| provider_oid := 1000 + n; provider_id := config_id c |}
       else None;
     connects := λ _, true |}.

Definition provider_a : Provider := {| provider_oid := 1; provider_id := "a" |}.
Definition provider_b : Provider := {| provider_oid := 2; provider_id := "b" |}.

Definition polling_config : ProviderConfig :=
  {| type := "polling"; config_id := "poll"; url := "php/poll.php" |}.

Definition transaction_1 : Transaction :=
  {| transaction_oid := 1; transaction_id := "t1" |}.

(** The provider the sample class system makes first. *)
Definition first_created : Provider :=
  {| provider_oid := 1000; provider_id := "poll" |}.

(** The Manager after [addProvider(provider_a)]. *)
Definition with_provider_a : World :=
  exec (Manager.addProvider (F:=polling_only) [Instance provider_a])
    (Manager.constructor ∅).

(** A server event named [message] whose status flag is false. *)
Definition named_failure : DirectEvent :=
  {| event_oid := 1; getName := some "message"; getStatus := some false |}.

(** A server event named [message] that succeeded. *)
Definition server_message : DirectEvent :=
  {| event_oid := 3; getName := some "message"; getStatus := some true |}.

(** An exception event as a provider builds it: named [exception], status
    false. *)
Definition plain_failure : DirectEvent :=
  {| event_oid := 2; getName := some "exception"; getStatus := some false |}.

(** A browser window: [window.length] is the number [0],
    [window.MyApp.Person] is a class with the function [read], numbers
    have [toFixed] from their prototype, and [window.guarded] is an object
    whose [read] is a getter that raises. *)
Definition browser : Globals :=
  {| window := v_object 0;
     member := λ v name,
       match v with
       | v_object 0 =>
           if decide (name = "length") then inr (v_number 0)
           else if decide (name = "MyApp") then inr (v_object 1)
           else if decide (name = "guarded") then inr (v_object 5)
           else inr v_undefined
       | v_object 1 =>
           inr (if decide (name = "Person") then v_function 2 else v_undefined)
       | v_function 2 =>
           inr (if decide (name = "read") then v_function 3 else v_undefined)
       | v_number _ =>
           inr (if decide (name = "toFixed") then v_function 9 else v_undefined)
       | v_object 5 =>
           if decide (name = "read") then inl (Thrown "denied")
           else inr v_undefined
       | _ => inr v_undefined
       end |}.
End Sample.

(** ** Further sample inputs *)

Module MoreSamples.
(** A config whose type the sample class system does not know. *)
Definition remoting_config : ProviderConfig :=
  {| type := "remoting"; config_id := "remote"; url := "php/router.php" |}.

(** Another provider object that also answers to the id [a]. *)
Definition provider_a_again : Provider :=
  {| provider_oid := 3; provider_id := "a" |}.

(** A page whose [window] has the function [alert] and nothing else. *)
Definition page : Globals :=
  {| window := v_object 0;
     member := λ v name,
       match v with
       | v_object 0 =>
           inr (if decide (name = "alert") then v_function 7 else v_undefined)
       | _ => inr v_undefined
       end |}.
End MoreSamples.

(** * Properties *)

(** ** The collection *)

Section CollectionFacts.
Context {A : Type} `{EqDecision A}.
Import Collection.
Implicit Types (c : Collection.t A) (x : A) (k : string)
  (l : list (string * A)).

Lemma replace_entry_keys k x l :
  (replace_entry k x l).*1 = l.*1.
Proof.
  induction l as [|[k' y] l IH]; csimpl; [done|].
  destruct (decide (k' = k)) as [->|]; csimpl; [done|].
  by rewrite IH.
Qed.

Lemma lookup_entry_None k l :
  k ∉ l.*1 -> lookup_entry k l = undefined.
Proof.
  induction l as [|[k' y] l IH]; simpl; [done|].
  intros Hn. destruct (decide (k' = k)) as [->|].
  - exfalso. apply Hn. left.
  - apply IH. intros Hin. apply Hn. by right.
Qed.

Lemma lookup_entry_some k x l :
  lookup_entry k l = some x -> (k, x) ∈ l.
Proof.
  induction l as [|[k' y] l IH]; simpl; [done|].
  destruct (decide (k' = k)) as [->|]; intros Hl.
  - injection Hl as ->. left.
  - right. by apply IH.
Qed.

Lemma lookup_entry_app_new k x l :
  k ∉ l.*1 -> lookup_entry k (l ++ [(k, x)]) = some x.
Proof.
  induction l as [|[k' y] l IH]; simpl; intros Hn.
  - by rewrite decide_True.
  - destruct (decide (k' = k)) as [->|].
    + exfalso. apply Hn. left.
    + apply IH. intros Hin. apply Hn. by right.
Qed.

Lemma lookup_entry_replace k x l :
  k ∈ l.*1 -> lookup_entry k (replace_entry k x l) = some x.
Proof.
  induction l as [|[k' y] l IH]; simpl; intros Hin.
  - by apply elem_of_nil in Hin.
  - destruct (decide (k' = k)) as [->|Hne]; simpl.
    + by rewrite decide_True.
    + rewrite decide_False by done. apply IH.
      apply elem_of_cons in Hin as [?|?]; [congruence|done].
Qed.

Lemma replace_entry_Forall (P : string * A -> Prop) k x l :
  P (k, x) -> Forall P l -> Forall P (replace_entry k x l).
Proof.
  intros HP. induction 1 as [|[k' y] l Hy Hl IH]; simpl; [constructor|].
  destruct (decide (k' = k)); constructor; auto.
Qed.

(** Reading back what was just added. *)
Lemma get_add x c : get (keyFn c x) (add x c) = some x.
Proof.
  unfold get, add; simpl. destruct (decide _) as [Hin|Hn].
  - by apply lookup_entry_replace.
  - by apply lookup_entry_app_new.
Qed.

Lemma get_absent k c : k ∉ keys c -> get k c = undefined.
Proof. apply lookup_entry_None. Qed.

Lemma get_some_elem k x c : get k c = some x -> (k, x) ∈ entries c.
Proof. apply lookup_entry_some. Qed.

Lemma add_unique_keys x c : unique_keys c -> unique_keys (add x c).
Proof.
  unfold unique_keys, keys, add; simpl. intros Hnd.
  destruct (decide _) as [Hin|Hn].
  - by rewrite replace_entry_keys.
  - rewrite fmap_app; simpl. apply NoDup_app. split_and!; [done| |].
    + intros k Hk Hk'. apply list_elem_of_singleton in Hk'. by subst.
    + apply NoDup_singleton.
Qed.

Lemma add_keyed_by getKey x c : keyed_by getKey c -> keyed_by getKey (add x c).
Proof.
  intros [Hk Hall]. split; [done|]. unfold add; simpl. rewrite Hk.
  destruct (decide _).
  - by apply replace_entry_Forall.
  - apply Forall_app. split; [done|]. by repeat constructor.
Qed.

Lemma remove_unique_keys v c : unique_keys c -> unique_keys (remove v c).
Proof.
  destruct v as [| |x]; [done..|]. unfold unique_keys, keys; simpl.
  generalize (entries c). intros l Hnd.
  induction l as [|[k y] l IH]; simpl; [constructor|].
  apply NoDup_cons in Hnd as [Hk Hnd].
  rewrite filter_cons. destruct (decide _); simpl; [|by apply IH].
  apply NoDup_cons. split; [|by apply IH].
  intros Hin. apply Hk. apply list_elem_of_fmap in Hin as [e [-> He]].
  apply list_elem_of_fmap. exists e. split; [done|].
  by apply list_elem_of_filter in He as [_ ?].
Qed.

Lemma remove_keyed_by getKey v c :
  keyed_by getKey c -> keyed_by getKey (remove v c).
Proof.
  destruct v as [| |x]; [done..|]. intros [Hk Hall]. split; [done|]. simpl.
  apply Forall_forall. intros e He.
  apply list_elem_of_filter in He as [_ He].
  by apply (proj1 (Forall_forall _ _) Hall).
Qed.

(** Removing an item that is not stored leaves the collection as it was. *)
Lemma remove_absent x c : x ∉ items c -> remove (some x) c = c.
Proof.
  destruct c as [kf l]. unfold remove, items; simpl. intros Hn. f_equal.
  induction l as [|[k y] l IH]; simpl; [done|].
  rewrite filter_cons. simpl. destruct (decide (y ≠ x)) as [Hne|Heq].
  - f_equal. apply IH. intros Hin. apply Hn. simpl. by right.
  - exfalso. apply Hn. simpl. destruct (decide (y = x)) as [->|]; [left|done].
Qed.

(** Once a stored item is removed its key finds nothing, keys being
    unique. *)
Lemma get_remove k x c :
  unique_keys c -> (k, x) ∈ entries c -> get k (remove (some x) c) = undefined.
Proof.
  unfold unique_keys, keys, get; simpl. generalize (entries c). intros l.
  induction l as [|[k' y] l IH]; simpl; intros Hnd Hin.
  - by apply elem_of_nil in Hin.
  - apply NoDup_cons in Hnd as [Hk Hnd]. rewrite filter_cons; simpl.
    apply elem_of_cons in Hin as [Heq|Hin].
    + injection Heq as <- <-. rewrite decide_False by (intros Hc; by apply Hc).
      apply lookup_entry_None. intros Hin. apply Hk.
      apply list_elem_of_fmap in Hin as [e [-> He]].
      apply list_elem_of_fmap. exists e. split; [done|].
      by apply list_elem_of_filter in He as [_ ?].
    + destruct (decide (y ≠ x)); simpl; [|by apply IH].
      destruct (decide (k' = k)) as [->|]; [|by apply IH].
      exfalso. apply Hk. apply list_elem_of_fmap. by exists (k, x).
Qed.

Lemma add_items x c : x ∈ items (add x c).
Proof.
  unfold items, add; simpl. destruct (decide _) as [Hin|Hn].
  - apply list_elem_of_fmap. exists (keyFn c x, x). split; [done|].
    apply lookup_entry_some. by apply lookup_entry_replace.
  - rewrite fmap_app. apply elem_of_app. right. csimpl. left.
Qed.

Lemma remove_items x c : x ∉ items (remove (some x) c).
Proof.
  unfold items, remove; simpl. intros Hin.
  apply list_elem_of_fmap in Hin as [[k y] [-> He]].
  apply list_elem_of_filter in He as [Hne _]. by apply Hne.
Qed.
End CollectionFacts.

(** ** The Manager: registries *)

(** Unfolds the plumbing of a computation down to the world it builds. *)
Ltac run_m :=
  unfold exec, result, new_calls, bind, ret, throw, gets, modify, log,
    set_state, set_providers, set_transactions, on, un, isConnected,
    fireEvent, Manager.connect; simpl.

(** Normalises, in a hypothesis, a computation run in a world given by its
    fields. *)
Ltac run_in H :=
  cbv beta iota zeta delta
    [Manager.addProvider_one Manager.create_provider Manager.connect
     Manager.removeProvider Manager.addTransaction Manager.getTransaction
     Manager.removeTransaction Manager.getProvider
     bind ret throw gets modify log set_state set_providers set_transactions
     on un isConnected fireEvent state_of add_calls
     transactions providers store created calls] in H.

Section ManagerFacts.
Context {F : Framework}.
Import Manager.

Lemma keeps_preserves {A} (m : M A) : keeps_collections m -> preserves m.
Proof.
  intros Hk w. destruct (Hk w) as [Ht Hp]. unfold invariant.
  by rewrite Ht, Hp.
Qed.

Lemma preserves_bind {A B} (m : M A) (k : A -> M B) :
  preserves m -> (∀ a, preserves (k a)) -> preserves (bind m k).
Proof.
  intros Hm Hk w Hw. specialize (Hm w Hw). unfold exec, bind in *.
  destruct (m w) as [w' [e|a]]; simpl in *; [done|]. by apply Hk.
Qed.

Lemma preserves_ret {A} (a : A) : preserves (ret a).
Proof. by intros w. Qed.

Lemma preserves_throw {A} (e : exn) : preserves (throw (A:=A) e).
Proof. by intros w. Qed.

Lemma preserves_for_each {A} (body : A -> M unit) l :
  (∀ a, preserves (body a)) -> preserves (for_each body l).
Proof.
  intros Hb. induction l as [|a l IH]; simpl.
  - apply preserves_ret.
  - apply preserves_bind; [apply Hb|]. intros _. apply IH.
Qed.

Lemma preserves_on p ev fn sc : preserves (on p ev fn sc).
Proof. apply keeps_preserves. by intros w. Qed.

Lemma preserves_un p ev fn sc : preserves (un p ev fn sc).
Proof. apply keeps_preserves. by intros w. Qed.

Lemma preserves_isConnected p : preserves (isConnected p).
Proof. apply keeps_preserves. by intros w. Qed.

Lemma preserves_connect p : preserves (connect p).
Proof. apply keeps_preserves. by intros w. Qed.

Lemma preserves_create_provider c : preserves (create_provider c).
Proof.
  apply keeps_preserves. intros w. unfold create_provider. run_m.
  by destruct (Ext_create _ _ _).
Qed.

Lemma preserves_update_providers (f : Collection.t Provider -> Collection.t Provider) :
  (∀ c, Collection.keyed_by getKey c -> Collection.keyed_by getKey (f c)) ->
  (∀ c, Collection.unique_keys c -> Collection.unique_keys (f c)) ->
  preserves (c <- gets providers ;; set_providers (f c)).
Proof.
  intros Hk Hu w (Ht1 & Ht2 & Hp1 & Hp2). run_m.
  unfold invariant; simpl. auto.
Qed.

Lemma preserves_update_transactions
    (f : Collection.t Transaction -> Collection.t Transaction) :
  (∀ c, Collection.keyed_by getKey c -> Collection.keyed_by getKey (f c)) ->
  (∀ c, Collection.unique_keys c -> Collection.unique_keys (f c)) ->
  preserves (c <- gets transactions ;; set_transactions (f c)).
Proof.
  intros Hk Hu w (Ht1 & Ht2 & Hp1 & Hp2). run_m.
  unfold invariant; simpl. auto.
Qed.

(** The two ways through [addProvider]. *)
Lemma addProvider_single d : addProvider [d] = addProvider_one d.
Proof. by simp addProvider. Qed.

Lemma addProvider_several args :
  1 < length args ->
  addProvider args
  = (for_each (λ a, addProvider [a] ;; ret tt) args ;; ret undefined).
Proof.
  intros Hl. rewrite addProvider_equation_1.
  destruct (decide (1 < length args)); [|done]. by simp addProvider.
Qed.

Lemma addProvider_none : addProvider [] = throw (TypeError "provider is undefined").
Proof. by simp addProvider. Qed.

Lemma preserves_addProvider_one d : preserves (addProvider_one d).
Proof.
  unfold addProvider_one. apply preserves_bind.
  { destruct d; [apply preserves_ret|apply preserves_create_provider]. }
  intros p.
  change (preserves ((c <- gets providers ;; set_providers (Collection.add p c)) ;;
                     on p "data" Manager_onProviderData Manager_scope ;;
                     isc <- isConnected p ;;
                     (if negb isc then connect p else ret tt) ;;
                     ret (some p))).
  apply preserves_bind.
  { apply preserves_update_providers; intros c.
    - apply add_keyed_by.
    - apply add_unique_keys. }
  intros _. apply preserves_bind; [apply preserves_on|].
  intros _. apply preserves_bind; [apply preserves_isConnected|].
  intros isc. apply preserves_bind; [|intros; apply preserves_ret].
  destruct isc; [apply preserves_ret|apply preserves_connect].
Qed.

Lemma preserves_addProvider args : preserves (addProvider args).
Proof.
  destruct (decide (1 < length args)) as [Hl|Hl].
  - rewrite addProvider_several by done.
    apply preserves_bind; [|intros; apply preserves_ret].
    apply preserves_for_each. intros a. rewrite addProvider_single.
    apply preserves_bind; [apply preserves_addProvider_one|].
    intros; apply preserves_ret.
  - destruct args as [|d [|d' args]]; simpl in Hl; [| |lia].
    + rewrite addProvider_none. apply preserves_throw.
    + rewrite addProvider_single. apply preserves_addProvider_one.
Qed.

Lemma preserves_removeProvider r : preserves (removeProvider r).
Proof.
  unfold removeProvider. apply preserves_bind.
  { destruct r; [|apply preserves_ret]. apply keeps_preserves. by intros w. }
  intros [| |p]; try apply preserves_ret.
  apply preserves_bind; [apply preserves_un|]. intros _.
  change (preserves ((c <- gets providers ;;
                      set_providers (Collection.remove (some p) c)) ;;
                     ret (some p))).
  apply preserves_bind; [|intros; apply preserves_ret].
  apply preserves_update_providers; intros c.
  - apply remove_keyed_by.
  - apply remove_unique_keys.
Qed.

Lemma preserves_addTransaction t : preserves (addTransaction t).
Proof.
  unfold addTransaction.
  change (preserves ((c <- gets transactions ;;
                      set_transactions (Collection.add t c)) ;; ret t)).
  apply preserves_bind; [|intros; apply preserves_ret].
  apply preserves_update_transactions; intros c.
  - apply add_keyed_by.
  - apply add_unique_keys.
Qed.

Lemma preserves_removeTransaction r : preserves (removeTransaction r).
Proof.
  unfold removeTransaction. apply preserves_bind.
  { destruct r; [|apply preserves_ret]. apply keeps_preserves. by intros w. }
  intros v.
  change (preserves ((c <- gets transactions ;;
                      set_transactions (Collection.remove v c)) ;; ret v)).
  apply preserves_bind; [|intros; apply preserves_ret].
  apply preserves_update_transactions; intros c.
  - apply remove_keyed_by.
  - apply remove_unique_keys.
Qed.

Lemma invariant_constructor objects : invariant (constructor objects).
Proof.
  unfold invariant, constructor, Collection.keyed_by,
    Collection.unique_keys, Collection.keys; simpl.
  split_and!; try done; constructor.
Qed.

Lemma invariant_perform o w : invariant w -> invariant (perform o w).
Proof.
  destruct o; simpl.
  - apply preserves_addProvider.
  - apply preserves_removeProvider.
  - apply preserves_addTransaction.
  - apply preserves_removeTransaction.
Qed.

Lemma invariant_perform_all ops w : invariant w -> invariant (perform_all ops w).
Proof.
  revert w. induction ops as [|o ops IH]; intros w Hw; simpl; [done|].
  apply IH. by apply invariant_perform.
Qed.
End ManagerFacts.

(** ** The Manager: what the specification claims *)

Section ManagerClaims.
Context {F : Framework}.
Import Manager.

Lemma unique_keys_distinct {A} (c : Collection.t A) i j k x y :
  Collection.unique_keys c ->
  Collection.entries c !! i = Some (k, x) ->
  Collection.entries c !! j = Some (k, y) ->
  i = j.
Proof.
  unfold Collection.unique_keys, Collection.keys. intros Hnd Hi Hj.
  apply (proj1 (NoDup_alt _) Hnd i j k); rewrite list_lookup_fmap.
  - by rewrite Hi.
  - by rewrite Hj.
Qed.

Lemma keyed_by_entry {A} (getKey : A -> string) (c : Collection.t A) k x :
  Collection.keyed_by getKey c -> (k, x) ∈ Collection.entries c -> k = getKey x.
Proof.
  intros [_ Hall] Hin. by apply (proj1 (Forall_forall _ _) Hall (k, x)).
Qed.

(** C5: both collections are keyed by [item.getId()], every operation
    ([addProvider], [removeProvider], [addTransaction],
    [removeTransaction]) keeps that and the uniqueness of keys, and so in
    every state reached from the constructor no two entries of one
    collection, at different positions, have the same key. *)
Theorem key_uniqueness_is_invariant :
  (∀ o w, invariant w -> invariant (perform o w))
  ∧ ∀ objects ops,
      let w := perform_all ops (constructor objects) in
      (∀ k p, (k, p) ∈ Collection.entries (providers w) -> k = getId p)
      ∧ (∀ i j k p q,
            Collection.entries (providers w) !! i = Some (k, p) ->
            Collection.entries (providers w) !! j = Some (k, q) -> i = j)
      ∧ (∀ k t, (k, t) ∈ Collection.entries (transactions w) -> k = getId t)
      ∧ (∀ i j k t u,
            Collection.entries (transactions w) !! i = Some (k, t) ->
            Collection.entries (transactions w) !! j = Some (k, u) -> i = j).
Proof.
  split; [apply invariant_perform|]. intros objects ops w.
  assert (invariant w) as (Ht1 & Ht2 & Hp1 & Hp2).
  { apply invariant_perform_all, invariant_constructor. }
  split_and!.
  - intros k p. by apply (keyed_by_entry getKey).
  - intros i j k p q. by apply unique_keys_distinct.
  - intros k t. by apply (keyed_by_entry getKey).
  - intros i j k t u. by apply unique_keys_distinct.
Qed.

Lemma new_calls_app {A} (m : M A) w cs :
  calls (exec m w) = calls w ++ cs -> new_calls m w = cs.
Proof. unfold new_calls. intros ->. by rewrite drop_app_length. Qed.

(** C1: [addProvider] called with one provider description.  Let [p] be
    the provider it stands for (the instance passed, or the one
    instantiated from the config).  The call returns [p]; [p] is in the
    providers registry afterwards; the Manager's listener is registered on
    its 'data' event; and the calls made on [p] are [on], [isConnected]
    and then [connect] exactly when [p] was not connected, so that
    [connect] is invoked if [p] is not connected and is not invoked if it
    is. *)
Theorem addProvider_connects_unless_connected d p w :
  instantiated d w = Some p ->
  let w' := exec (addProvider [d]) w in
  let made := new_calls (addProvider [d]) w in
  result (addProvider [d]) w = inr (some p)
  ∧ p ∈ Collection.items (providers w')
  ∧ Collection.get (Collection.keyFn (providers w) p) (providers w') = some p
  ∧ data_listener ∈ listeners (state_of w' p)
  ∧ made = creation d ++ [call_on p data_listener; call_isConnected p]
           ++ (if connected (state_of w p) then [] else [call_connect p])
  ∧ (connected (state_of w p) = false -> call_connect p ∈ made)
  ∧ (connected (state_of w p) = true -> call_connect p ∉ made).
Proof.
  intros Hd w' made.
  assert (result (addProvider [d]) w = inr (some p)
          ∧ p ∈ Collection.items (providers w')
          ∧ Collection.get (Collection.keyFn (providers w) p) (providers w') = some p
          ∧ data_listener ∈ listeners (state_of w' p)
          ∧ made = creation d ++ [call_on p data_listener; call_isConnected p]
                   ++ (if connected (state_of w p) then [] else [call_connect p]))
    as (Hres & Hin & Hget & Hl & Hmade).
  { subst w' made. rewrite addProvider_single. unfold result, new_calls, exec.
    remember (addProvider_one d w) as r eqn:Hr.
    destruct w as [tx pv st cr cs].
    destruct (connected (state_of _ p)) eqn:Hc; unfold state_of in Hc; simpl in Hc;
      destruct d as [p'|c]; simpl in Hd; [injection Hd as ->| |injection Hd as ->|];
      run_in Hr; rewrite ?Hd in Hr; run_in Hr;
      rewrite ?lookup_insert_eq in Hr; simpl in Hr;
      rewrite Hc in Hr; simpl in Hr; subst r; simpl.
    all: split_and!;
      [ done
      | apply add_items
      | apply get_add
      | unfold state_of; simpl; repeat (rewrite lookup_insert_eq; simpl);
        apply elem_of_app; right; left
      | rewrite <- ?app_assoc; by rewrite drop_app_length ]. }
  split_and!; try done.
  - intros Hc. rewrite Hmade, Hc, !elem_of_app. right. right. left.
  - intros Hc. rewrite Hmade, Hc, app_nil_r. intros Hcall.
    apply elem_of_app in Hcall. destruct Hcall as [H1|H1]; [destruct d; simpl in H1|];
      repeat (apply elem_of_cons in H1; destruct H1 as [Heq|H1]; [discriminate Heq|]);
      by apply elem_of_nil in H1.
Qed.

(** C3: [removeProvider] with an id under which no provider is registered
    returns [null] and changes nothing at all: the registry is as it was,
    no listener is taken off, no call is made. *)
Theorem removeProvider_unknown_id id w :
  id ∉ Collection.keys (providers w) ->
  removeProvider (ProviderId id) w = (w, inr null).
Proof.
  intros Hid. unfold removeProvider. run_m.
  by rewrite (get_absent id (providers w) Hid).
Qed.

(** C10: [removeProvider] with a provider instance that is not in the
    registry does not return [null]: it calls [un] for the Manager's
    'data' listener on the instance, asks the collection to remove it
    (which leaves the collection as it was) and returns the instance. *)
Theorem removeProvider_unregistered_instance p w :
  p ∉ Collection.items (providers w) ->
  let w' := exec (removeProvider (ProviderInstance p)) w in
  result (removeProvider (ProviderInstance p)) w = inr (some p)
  ∧ new_calls (removeProvider (ProviderInstance p)) w = [call_un p data_listener]
  ∧ (data_listener ∉ listeners (state_of w' p))
  ∧ providers w' = Collection.remove (some p) (providers w)
  ∧ providers w' = providers w
  ∧ transactions w' = transactions w.
Proof.
  intros Hp w'. subst w'. unfold result, new_calls, exec.
  remember (removeProvider (ProviderInstance p) w) as r eqn:Hr.
  destruct w as [tx pv st cr cs]. run_in Hr. subst r. simpl in *.
  split_and!; try done.
  - by rewrite drop_app_length.
  - unfold state_of; simpl. rewrite lookup_insert_eq; simpl.
    intros Hin. apply list_elem_of_filter in Hin as [Hne _]. by apply Hne.
  - by apply remove_absent.
Qed.

(** C7: a transaction that is added can be read back under its id, and
    removing it by id returns it and takes it out of the collection, after
    which its id finds nothing. *)
Theorem transaction_round_trip t w :
  invariant w ->
  let id := TransactionId (getId t) in
  let w1 := exec (addTransaction t) w in
  let w2 := exec (removeTransaction id) w1 in
  result (addTransaction t) w = inr t
  ∧ result (getTransaction id) w1 = inr (some t)
  ∧ result (removeTransaction id) w1 = inr (some t)
  ∧ (t ∉ Collection.items (transactions w2))
  ∧ result (getTransaction id) w2 = inr undefined.
Proof.
  intros ([Hkey _] & Huniq & _) id w1 w2.
  assert (transactions w1 = Collection.add t (transactions w)) as Hw1 by done.
  assert (result (addTransaction t) w = inr t) as Hadd by done.
  clearbody w1.
  assert (Collection.get (getId t) (transactions w1) = some t) as Hget.
  { rewrite Hw1, <- (get_add t (transactions w)). by rewrite Hkey. }
  assert (transactions w2 = Collection.remove (some t) (transactions w1)) as Hw2.
  { subst w2 id. unfold exec. run_m. by rewrite Hget. }
  assert (result (removeTransaction id) w1 = inr (some t)) as Hrem.
  { subst id. unfold result. run_m. by rewrite Hget. }
  clearbody w2.
  split_and!; [done| |done| |].
  - subst id. unfold result. run_m. by rewrite Hget.
  - rewrite Hw2. apply remove_items.
  - subst id. unfold result. run_m. rewrite Hw2. f_equal.
    apply get_remove; [|by apply get_some_elem].
    rewrite Hw1. by apply add_unique_keys.
Qed.

Lemma for_each_one_call_each args w :
  for_each (λ a, addProvider [a] ;; ret tt) args w
  = ((one_call_each args w).1,
     match (one_call_each args w).2 with
     | None => inr tt
     | Some e => inl e
     end).
Proof.
  revert w. induction args as [|a args IH]; intros w; simpl; [done|].
  unfold bind at 1. unfold bind at 1. unfold ret at 1.
  destruct (addProvider [a] w) as [w' [e|v]]; simpl; [done|]. apply IH.
Qed.

(** C8: [addProvider] called with several arguments leaves the world that
    one single-argument call per argument, made in order, leaves (the same
    registry, the same listeners, the same calls on the providers), throws
    what the first throwing one of them throws, and otherwise returns
    [undefined]. *)
Theorem addProvider_several_arguments args w :
  1 < length args ->
  exec (addProvider args) w = (one_call_each args w).1
  ∧ result (addProvider args) w
    = match (one_call_each args w).2 with
      | None => inr undefined
      | Some e => inl e
      end.
Proof.
  intros Hl. rewrite (addProvider_several args Hl). unfold exec, result.
  unfold bind at 1 3. rewrite for_each_one_call_each.
  by destruct (one_call_each args w) as [w' [e|]].
Qed.

Lemma add_calls_add_calls cs1 cs2 w :
  add_calls cs2 (add_calls cs1 w) = add_calls (cs1 ++ cs2) w.
Proof. unfold add_calls; simpl. by rewrite app_assoc. Qed.

Lemma add_calls_nil w : add_calls [] w = w.
Proof. destruct w. unfold add_calls; simpl. by rewrite app_nil_r. Qed.

Lemma new_calls_add_calls {A} (m : M A) w cs r :
  m w = (add_calls cs w, r) -> new_calls m w = cs.
Proof.
  intros Hm. apply new_calls_app. unfold exec. by rewrite Hm.
Qed.

(** Induction on an [onProviderData] argument, arrays included. *)
Lemma EventData_nested_ind (P : EventData -> Prop) :
  (∀ e, P (Single e)) ->
  (∀ l, Forall P l -> P (Multiple l)) ->
  ∀ event, P event.
Proof.
  intros HS HM. fix IH 1. intros [e|l]; [apply HS|]. apply HM.
  induction l as [|ev l IHl]; constructor; [apply IH|apply IHl].
Qed.

(** What [onProviderData] does with one event. *)
Lemma onProviderData_Single provider e w :
  onProviderData provider (Single e) w
  = (add_calls
       ((if truthy_str (getName e) && differs (getName e) "event"
            && differs (getName e) "exception"
         then [call_fireEvent (name_of (getName e)) [arg_event e]]
         else if is_false (getStatus e)
              then [call_fireEvent "exception" [arg_event e]]
              else [])
        ++ [call_fireEvent "event" [arg_event e; arg_provider provider]]) w,
     inr tt).
Proof.
  simpl. unfold fireEvent, log, modify, bind, ret.
  destruct (truthy_str _ && _ && _); [|destruct (is_false _)]; simpl;
    by rewrite ?add_calls_add_calls.
Qed.

Lemma differs_fires name s :
  truthy_str name && differs name s = true ->
  ∀ args, fires s (call_fireEvent (name_of name) args) = false.
Proof.
  destruct name as [| |n]; simpl; try done.
  destruct (decide (n = EmptyString)); simpl; [done|].
  destruct (decide (n = s)) as [->|Hne]; [done|]. intros _ args.
  by apply bool_decide_eq_false.
Qed.

Lemma onProviderData_emits provider event :
  ∀ w, ∃ cs,
    onProviderData provider event w = (add_calls cs w, inr tt)
    ∧ List.filter (fires "event") cs
      = map (λ e, call_fireEvent "event" [arg_event e; arg_provider provider])
          (events_of event).
Proof.
  induction event as [e|l IH] using EventData_nested_ind; intros w.
  - eexists. split; [apply onProviderData_Single|].
    rewrite List.filter_app.
    destruct (truthy_str _ && differs _ "event" && _) eqn:Hn.
    + apply andb_prop in Hn as [Hn _].
      cbn [List.filter]. by rewrite (differs_fires _ _ Hn).
    + by destruct (is_false _).
  - simpl. revert w. induction IH as [|ev l Hev _ IHl]; intros w.
    + exists []. by rewrite add_calls_nil.
    + destruct (Hev w) as (cs1 & Hrun1 & Hf1).
      destruct (IHl (add_calls cs1 w)) as (cs2 & Hrun2 & Hf2).
      exists (cs1 ++ cs2). split.
      * simpl. unfold bind at 1. rewrite Hrun1.
        simpl in Hrun2. rewrite Hrun2. by rewrite add_calls_add_calls.
      * rewrite List.filter_app, Hf1, Hf2. simpl. by rewrite map_app.
Qed.

(** C4: [onProviderData] never throws.  For one event it ends by firing
    'event' with the event and the provider, whatever the event's name and
    status are, and fires 'event' that once only; for an array it fires
    'event' once per element, in the order of the array. *)
Theorem onProviderData_fires_event :
  (∀ provider e w,
      let made := new_calls (onProviderData provider (Single e)) w in
      result (onProviderData provider (Single e)) w = inr tt
      ∧ last made = Some (call_fireEvent "event" [arg_event e; arg_provider provider])
      ∧ List.filter (fires "event") made
        = [call_fireEvent "event" [arg_event e; arg_provider provider]])
  ∧ (∀ provider event w,
        let made := new_calls (onProviderData provider event) w in
        result (onProviderData provider event) w = inr tt
        ∧ List.filter (fires "event") made
          = map (λ e, call_fireEvent "event" [arg_event e; arg_provider provider])
              (events_of event)).
Proof.
  split.
  - intros provider e w made. subst made.
    split_and!.
    + unfold result. by rewrite onProviderData_Single.
    + rewrite (new_calls_add_calls _ _ _ _ (onProviderData_Single provider e w)).
      apply last_snoc.
    + destruct (onProviderData_emits provider (Single e) w) as (cs & Hrun & Hf).
      by rewrite (new_calls_add_calls _ _ _ _ Hrun).
  - intros provider event w made.
    destruct (onProviderData_emits provider event w) as (cs & Hrun & Hf).
    assert (made = cs) as -> by (by apply (new_calls_add_calls _ _ _ (inr tt))).
    split; [unfold result; by rewrite Hrun|done].
Qed.

Lemma is_false_spec (v : js bool) : is_false v = true ↔ v = some false.
Proof. destruct v as [| |[|]]; simpl; split; congruence. Qed.

Lemma named_not_plain name :
  truthy_str name && differs name "event" && differs name "exception" = true ->
  ¬ plain_name name ∧ name_of name ≠ "exception".
Proof.
  destruct name as [| |n]; simpl; try done.
  destruct (decide (n = EmptyString)); simpl; [done|].
  destruct (decide (n = "event")); simpl; [done|].
  destruct (decide (n = "exception")); simpl; [done|]. intros _. split; [|done].
  intros [Hn|[Hn|Hn]]; simpl in Hn.
  - by rewrite decide_False in Hn.
  - congruence.
  - congruence.
Qed.

Lemma not_named_plain name :
  truthy_str name && differs name "event" && differs name "exception" = false ->
  plain_name name.
Proof.
  unfold plain_name. destruct name as [| |n]; simpl; try (by left).
  destruct (decide (n = EmptyString)); simpl; [by left|].
  destruct (decide (n = "event")) as [->|]; simpl; [right; by left|].
  destruct (decide (n = "exception")) as [->|]; simpl; [right; by right|done].
Qed.

(** C2, as the code has it: an event whose status flag is false is
    re-emitted as 'exception' when its name is absent, empty, 'event' or
    'exception'; the calls are then 'exception' with the event, followed by
    'event'.  An event with any other name is re-emitted under that name,
    followed by 'event', and no 'exception' is fired for it, whatever its
    status flag is. *)
Theorem onProviderData_exception provider e w :
  let made := new_calls (onProviderData provider (Single e)) w in
  (getStatus e = some false ->
   plain_name (getName e) ->
   made = [call_fireEvent "exception" [arg_event e];
           call_fireEvent "event" [arg_event e; arg_provider provider]])
  ∧ (¬ plain_name (getName e) ->
       made = [call_fireEvent (name_of (getName e)) [arg_event e];
               call_fireEvent "event" [arg_event e; arg_provider provider]]
       ∧ ∀ args, call_fireEvent "exception" args ∉ made).
Proof.
  intros made.
  assert (made
          = (if truthy_str (getName e) && differs (getName e) "event"
                && differs (getName e) "exception"
             then [call_fireEvent (name_of (getName e)) [arg_event e]]
             else if is_false (getStatus e)
                  then [call_fireEvent "exception" [arg_event e]]
                  else [])
            ++ [call_fireEvent "event" [arg_event e; arg_provider provider]])
    as Hmade.
  { subst made. eapply new_calls_add_calls. apply onProviderData_Single. }
  clearbody made. subst made.
  destruct (truthy_str _ && _ && _) eqn:Hn.
  - destruct (named_not_plain _ Hn) as [Hnp Hne]. split; [done|].
    intros _. split; [done|]. intros args Hin.
    apply elem_of_cons in Hin. destruct Hin as [Heq|Hin]; [congruence|].
    apply elem_of_cons in Hin. destruct Hin as [Heq|Hin]; [discriminate Heq|].
    by apply elem_of_nil in Hin.
  - pose proof (not_named_plain _ Hn) as Hpl. split; [|done].
    intros Hs _. apply is_false_spec in Hs. by rewrite Hs.
Qed.
End ManagerClaims.

(** ** The Manager: the claims at sample inputs *)

Section ManagerSamples.
Import Manager Sample.
Local Existing Instance polling_only.

(** C1 at a config of the polling provider, in a fresh Manager: the new
    provider is returned, and [connect] follows [on] and [isConnected]. *)
Lemma addProvider_connects_unless_connected_witness :
  instantiated (Config polling_config) (constructor ∅) = Some first_created
  ∧ result (addProvider [Config polling_config]) (constructor ∅)
    = inr (some first_created)
  ∧ new_calls (addProvider [Config polling_config]) (constructor ∅)
    = [call_create "direct.pollingprovider" polling_config;
       call_on first_created data_listener;
       call_isConnected first_created;
       call_connect first_created].
Proof.
  assert (instantiated (Config polling_config) (constructor ∅)
          = Some first_created) as H by reflexivity.
  split; [exact H|].
  destruct (addProvider_connects_unless_connected
              (Config polling_config) first_created (constructor ∅) H)
    as (Hres & _ & _ & _ & Hmade & _).
  split; [exact Hres|exact Hmade].
Defined.

(** C3 at the id [b] when only [provider_a] is registered. *)
Lemma removeProvider_unknown_id_witness :
  ("b" ∉ Collection.keys (providers with_provider_a))
  ∧ removeProvider (ProviderId "b") with_provider_a = (with_provider_a, inr null).
Proof.
  assert ("b" ∉ Collection.keys (providers with_provider_a)) as H.
  { apply (bool_decide_unpack _). by vm_compute. }
  split; [exact H|]. exact (removeProvider_unknown_id "b" with_provider_a H).
Defined.

(** C10 at [provider_b] when only [provider_a] is registered. *)
Lemma removeProvider_unregistered_instance_witness :
  (provider_b ∉ Collection.items (providers with_provider_a))
  ∧ result (removeProvider (ProviderInstance provider_b)) with_provider_a
    = inr (some provider_b)
  ∧ new_calls (removeProvider (ProviderInstance provider_b)) with_provider_a
    = [call_un provider_b data_listener]
  ∧ providers (exec (removeProvider (ProviderInstance provider_b)) with_provider_a)
    = providers with_provider_a.
Proof.
  assert (provider_b ∉ Collection.items (providers with_provider_a)) as H.
  { apply (bool_decide_unpack _). by vm_compute. }
  split; [exact H|].
  destruct (removeProvider_unregistered_instance provider_b with_provider_a H)
    as (Hres & Hmade & _ & _ & Hsame & _).
  split_and!; [exact Hres|exact Hmade|exact Hsame].
Defined.

(** C7 at [transaction_1] in a fresh Manager. *)
Lemma transaction_round_trip_witness :
  invariant (constructor ∅)
  ∧ result (getTransaction (TransactionId "t1"))
      (exec (addTransaction transaction_1) (constructor ∅))
    = inr (some transaction_1)
  ∧ result (getTransaction (TransactionId "t1"))
      (exec (removeTransaction (TransactionId "t1"))
         (exec (addTransaction transaction_1) (constructor ∅)))
    = inr undefined.
Proof.
  assert (invariant (constructor ∅)) as H by apply invariant_constructor.
  split; [exact H|].
  destruct (transaction_round_trip transaction_1 (constructor ∅) H)
    as (_ & Hget & _ & _ & Hgone).
  split; [exact Hget|exact Hgone].
Defined.

(** C8 at an instance followed by a config. *)
Lemma addProvider_several_arguments_witness :
  1 < length [Instance provider_a; Config polling_config]
  ∧ exec (addProvider [Instance provider_a; Config polling_config]) (constructor ∅)
    = exec (addProvider [Config polling_config])
        (exec (addProvider [Instance provider_a]) (constructor ∅))
  ∧ result (addProvider [Instance provider_a; Config polling_config]) (constructor ∅)
    = inr undefined.
Proof.
  assert (1 < length [Instance provider_a; Config polling_config]) as H
    by (simpl; lia).
  split; [exact H|].
  destruct (addProvider_several_arguments
              [Instance provider_a; Config polling_config] (constructor ∅) H)
    as [Hexec Hres].
  split.
  - rewrite Hexec. by vm_compute.
  - rewrite Hres. by vm_compute.
Defined.

(** C2 at an event named [exception] whose status flag is false, and at
    an event named [message] that succeeded. *)
Lemma onProviderData_exception_witness :
  getStatus plain_failure = some false
  ∧ plain_name (getName plain_failure)
  ∧ new_calls (onProviderData provider_a (Single plain_failure)) (constructor ∅)
    = [call_fireEvent "exception" [arg_event plain_failure];
       call_fireEvent "event" [arg_event plain_failure; arg_provider provider_a]]
  ∧ ¬ plain_name (getName server_message)
  ∧ new_calls (onProviderData provider_a (Single server_message)) (constructor ∅)
    = [call_fireEvent "message" [arg_event server_message];
       call_fireEvent "event" [arg_event server_message; arg_provider provider_a]].
Proof.
  assert (getStatus plain_failure = some false) as H by reflexivity.
  assert (plain_name (getName plain_failure)) as Hn by (right; right; reflexivity).
  assert (¬ plain_name (getName server_message)) as Hm.
  { intros [Hc|[Hc|Hc]]; discriminate Hc. }
  split; [exact H|]. split; [exact Hn|].
  split.
  - exact (proj1 (onProviderData_exception provider_a plain_failure
                    (constructor ∅)) H Hn).
  - split; [exact Hm|].
    exact (proj1 (proj2 (onProviderData_exception provider_a server_message
                           (constructor ∅)) Hm)).
Defined.

(** C2 as stated fails: an event named [message] whose status flag is
    false is re-emitted as 'message' and as 'event'; no 'exception' event
    carries it. *)
Lemma named_failure_fires_no_exception :
  getStatus named_failure = some false
  ∧ new_calls (onProviderData provider_a (Single named_failure)) (constructor ∅)
    = [call_fireEvent "message" [arg_event named_failure];
       call_fireEvent "event" [arg_event named_failure; arg_provider provider_a]]
  ∧ (call_fireEvent "exception" [arg_event named_failure]
     ∉ new_calls (onProviderData provider_a (Single named_failure)) (constructor ∅)).
Proof.
  split_and!; [reflexivity|by vm_compute|].
  apply (bool_decide_unpack _). by vm_compute.
Qed.
End ManagerSamples.

(** ** parseMethod *)

Section DirectFacts.
Context {G : Globals}.
Import Direct.

Lemma falsy_not_function v : truthy v = false -> Ext_isFunction v = false.
Proof. by destruct v. Qed.

Lemma function_truthy v : Ext_isFunction v = true -> truthy v = true.
Proof. by destruct v. Qed.

Lemma get_member_truthy current part :
  truthy current = true -> get_member current part = member current part.
Proof. by destruct current. Qed.

Lemma walk_cons_truthy from part parts :
  truthy from = true ->
  walk from (part :: parts)
  = match member from part with
    | inr next => walk next parts
    | inl e => inl e
    end.
Proof. intros Ht. simpl. by rewrite Ht, (get_member_truthy _ _ Ht). Qed.

Lemma path_value_cons_truthy from part parts :
  truthy from = true ->
  path_value from (part :: parts)
  = match member from part with
    | inr next => path_value next parts
    | inl _ => None
    end.
Proof. by destruct from. Qed.

(** How the walk ends.  It ends with a value: the one the path names when
    every value met before the end is truthy, the first falsy one met
    otherwise.  Or it ends with the exception of a read it made, and that
    read was made on a truthy value: the guard of the loop keeps the walk
    from reading a property of [undefined] or [null]. *)
Lemma walk_outcome parts :
  ∀ from,
    (∃ v, walk from parts = inr v
          ∧ ((Forall (λ u, truthy u = true) (values_before from parts)
              ∧ path_value from parts = Some v)
             ∨ (¬ Forall (λ u, truthy u = true) (values_before from parts)
                ∧ truthy v = false)))
    ∨ (∃ e pre part post u,
          parts = pre ++ part :: post
          ∧ walk from pre = inr u ∧ truthy u = true ∧ member u part = inl e
          ∧ walk from parts = inl e
          ∧ Forall (λ u, truthy u = true) (values_before from parts)
          ∧ path_value from parts = None).
Proof.
  induction parts as [|part parts IH]; intros from.
  - left. exists from. split; [done|]. left. split; [constructor|done].
  - destruct (truthy from) eqn:Ht.
    + rewrite (walk_cons_truthy _ _ _ Ht), (path_value_cons_truthy _ _ _ Ht).
      simpl values_before.
      destruct (member from part) as [e|next] eqn:Hm.
      * right. exists e, [], part, parts, from. split_and!; try done.
        by repeat constructor.
      * destruct (IH next)
          as [(v & Hw & [[Hall Hp]|[Hall Hf]])
             |(e & pre & part' & post & u & -> & Hpre & Hu & He & Hw & Hall & Hp)].
        -- left. exists v. split; [done|]. left. split; [by constructor|done].
        -- left. exists v. split; [done|]. right. split; [|done].
           intros Hc. apply Hall. apply Forall_cons in Hc. by destruct Hc.
        -- right. exists e, (part :: pre), part', post, u.
           split_and!; try done.
           ++ by rewrite (walk_cons_truthy _ _ _ Ht), Hm.
           ++ by constructor.
    + left. exists from. simpl. rewrite Ht. split; [done|]. right. split; [|done].
      intros Hc. apply Forall_cons in Hc. destruct Hc as [Hc _]. congruence.
Qed.

(** What [parseMethod] makes of the walk's outcome. *)
Lemma parseMethod_string s :
  (∀ v, walk window (split s) = inr v ->
        parseMethod (fn_string s)
        = inr (if Ext_isFunction v then v else v_null))
  ∧ (∀ e, walk window (split s) = inl e -> parseMethod (fn_string s) = inl e).
Proof.
  unfold parseMethod. split.
  - intros v ->. destruct (Ext_isFunction v) eqn:Hf; [|done].
    by rewrite (function_truthy _ Hf).
  - by intros e ->.
Qed.

(** The outcome of [parseMethod] on a string, case by case. *)
Lemma parseMethod_outcome s :
  (∃ v, parseMethod (fn_string s) = inr (if Ext_isFunction v then v else v_null)
        ∧ ((Forall (λ u, truthy u = true) (values_before window (split s))
            ∧ path_value window (split s) = Some v)
           ∨ (¬ Forall (λ u, truthy u = true) (values_before window (split s))
              ∧ truthy v = false)))
  ∨ (∃ e pre part post u,
        split s = pre ++ part :: post
        ∧ walk window pre = inr u ∧ truthy u = true ∧ member u part = inl e
        ∧ parseMethod (fn_string s) = inl e
        ∧ Forall (λ u, truthy u = true) (values_before window (split s))
        ∧ path_value window (split s) = None).
Proof.
  destruct (parseMethod_string s) as [Hret Hraise].
  destruct (walk_outcome (split s) window)
    as [(v & Hw & Hcases)
       |(e & pre & part & post & u & Hs & Hpre & Hu & He & Hw & Hall & Hp)].
  - left. exists v. split; [by apply Hret|done].
  - right. exists e, pre, part, post, u. split_and!; try done. by apply Hraise.
Qed.

(** C9, as the code has it.  [parseMethod] hands a function back
    unchanged, and whatever it returns is a function or [null].  It never
    reads a property of [undefined] or [null]: an exception leaves it only
    when a read it makes, on a truthy value of the path, raises, and it is
    that read's exception; when no read raises, it returns.  For a string,
    the path is walked from [window] for as long as the values met are
    truthy: the result, when there is one, is [null] when a segment is
    missing; it is [null] when the value the path names is not a function
    and when a value met before the end is falsy; it is the value the path
    names when that is a function and every value met before it is
    truthy. *)
Theorem parseMethod_guarded :
  (∀ f, parseMethod (fn_function f) = inr (v_function f))
  ∧ (∀ fn r, parseMethod fn = inr r -> r = v_null ∨ Ext_isFunction r = true)
  ∧ (∀ s e, parseMethod (fn_string s) = inl e ->
            ∃ pre part post u,
              split s = pre ++ part :: post
              ∧ walk window pre = inr u ∧ truthy u = true
              ∧ member u part = inl e)
  ∧ ((∀ u part, ∃ v, member u part = inr v) ->
     ∀ fn, ∃ r, parseMethod fn = inr r)
  ∧ (∀ s r, path_value window (split s) = None ->
            parseMethod (fn_string s) = inr r -> r = v_null)
  ∧ (∀ s v, path_value window (split s) = Some v ->
            Ext_isFunction v = false ->
            parseMethod (fn_string s) = inr v_null)
  ∧ (∀ s, ¬ Forall (λ u, truthy u = true) (values_before window (split s)) ->
          parseMethod (fn_string s) = inr v_null)
  ∧ (∀ s v, path_value window (split s) = Some v ->
            Ext_isFunction v = true ->
            Forall (λ u, truthy u = true) (values_before window (split s)) ->
            parseMethod (fn_string s) = inr v).
Proof.
  split_and!.
  - done.
  - intros [s|f] r Hr.
    + destruct (parseMethod_outcome s)
        as [(v & Hv & _)|(e & _ & _ & _ & _ & _ & _ & _ & _ & He & _)];
        [|congruence].
      rewrite Hv in Hr. injection Hr as <-.
      destruct (Ext_isFunction v) eqn:Hf; auto.
    + injection Hr as <-. by right.
  - intros s e He.
    destruct (parseMethod_outcome s)
      as [(v & Hv & _)|(e' & pre & part & post & u & Hs & Hpre & Hu & Hm & He' & _)];
      [congruence|].
    rewrite He in He'. injection He' as <-. by exists pre, part, post, u.
  - intros Hreads [s|f]; [|by eexists].
    destruct (parseMethod_outcome s)
      as [(v & Hv & _)|(e & _ & part & _ & u & _ & _ & _ & Hm & _)];
      [by eexists|].
    destruct (Hreads u part) as [v Hv]. congruence.
  - intros s r Hp Hr.
    destruct (parseMethod_outcome s)
      as [(v & Hv & [[_ Hp']|[_ Hf]])|(e & _ & _ & _ & _ & _ & _ & _ & _ & He & _)];
      [congruence| |congruence].
    rewrite Hv in Hr. injection Hr as <-. by rewrite (falsy_not_function _ Hf).
  - intros s v Hp Hf.
    destruct (parseMethod_outcome s)
      as [(v' & Hv & [[_ Hp']|[_ Hfalse]])|(e & _ & _ & _ & _ & _ & _ & _ & _ & _ & _ & Hp')];
      [| |congruence]; rewrite Hv.
    + rewrite Hp in Hp'. injection Hp' as <-. by rewrite Hf.
    + by rewrite (falsy_not_function _ Hfalse).
  - intros s Hall.
    destruct (parseMethod_outcome s)
      as [(v & Hv & [[Hall' _]|[_ Hf]])|(e & _ & _ & _ & _ & _ & _ & _ & _ & _ & Hall' & _)];
      [done| |done].
    rewrite Hv. by rewrite (falsy_not_function _ Hf).
  - intros s v Hp Hf Hall.
    destruct (parseMethod_outcome s)
      as [(v' & Hv & [[_ Hp']|[Hall' _]])|(e & _ & _ & _ & _ & _ & _ & _ & _ & _ & _ & Hp')];
      [|done|congruence].
    rewrite Hv. rewrite Hp in Hp'. injection Hp' as <-. by rewrite Hf.
Qed.
End DirectFacts.

Section DirectSamples.
Import Direct.
Local Existing Instance Sample.browser.

(** C9 as stated fails twice.  In a browser window [window.length] is
    the number [0] and [window.length.toFixed] is a function, so no segment
    of [length.toFixed] is missing and the value it names is a function;
    yet the walk stops at the falsy [0] and [parseMethod] returns [null].
    And where [window.guarded.read] is a getter that raises,
    [parseMethod] raises what the getter raises. *)
Lemma parseMethod_stops_at_falsy_value :
  path_value window (split "length.toFixed") = Some (v_function 9)
  ∧ parseMethod_spec (fn_string "length.toFixed") = v_function 9
  ∧ parseMethod (fn_string "length.toFixed") = inr v_null
  ∧ parseMethod (fn_string "guarded.read") = inl (Thrown "denied").
Proof. split_and!; by vm_compute. Qed.

(** The ordinary case: [MyApp.Person.read] names a function and is found. *)
Example parseMethod_finds_read :
  parseMethod (fn_string "MyApp.Person.read") = inr (v_function 3)
  ∧ parseMethod (fn_string "MyApp.Missing.read") = inr v_null
  ∧ parseMethod (fn_string "MyApp") = inr v_null
  ∧ split "a..b." = ["a"; EmptyString; "b"; EmptyString].
Proof. split_and!; by vm_compute. Qed.
End DirectSamples.

(** ** Ext.EventManager *)

Section EventManagerFacts.
Context {element arg : Type}.
Import EventManager.
Implicit Types (el : element) (fn scope options : arg) (o : Operation element arg).

Lemma removeAll_not_pure_forward el :
  ¬ pure_forward (op_removeAll (arg:=arg) el).
Proof. intros (e & He & Hr). simpl in He. injection He as <-. done. Qed.

Lemma onDocumentReady_not_pure_forward :
  ¬ pure_forward (op_onDocumentReady (element:=element) (arg:=arg)).
Proof. intros (e & He & _). discriminate He. Qed.

(** C6, as the code has it: logging apart, [addListener] (and its alias
    [on]) is [el.on] with the same arguments, [removeListener] (and its
    alias [un]) is [el.un], [onWindowResize] is [Ext.Viewport.on('resize',
    ...)], and the two orientation operations are [Ext.Viewport.on] and
    [Ext.Viewport.un] of 'orientationchange'.  [removeAll] calls
    [clearListeners()] on what [Ext.get] finds for its argument, and
    [onDocumentReady] calls nothing.  Every operation logs one deprecation
    and does nothing besides. *)
Theorem EventManager_forwards :
  (∀ el name fn scope options,
      outside_logging (addListener el name fn scope options)
      = el_on el name fn scope options)
  ∧ (∀ el name fn scope,
        outside_logging (removeListener el name fn scope) = el_un el name fn scope)
  ∧ (∀ fn scope options,
        outside_logging (onWindowResize (element:=element) fn scope options)
        = Viewport_on "resize" fn scope options)
  ∧ (∀ fn scope options,
        outside_logging (onOrientationChange (element:=element) fn scope options)
        = Viewport_on "orientationchange" fn scope options)
  ∧ (∀ fn scope options,
        outside_logging (unOrientationChange (element:=element) fn scope options)
        = Viewport_un "orientationchange" fn scope options)
  ∧ (∀ el name fn scope options,
        on el name fn scope options = addListener el name fn scope options)
  ∧ (∀ el name fn scope, un el name fn scope = removeListener el name fn scope)
  ∧ (∀ el, outside_logging (removeAll (arg:=arg) el)
          = [call_clearListeners (Ext_get el)])
  ∧ outside_logging (onDocumentReady (element:=element) (arg:=arg)) = []
  ∧ (∀ o, List.length (List.filter is_logging (run o)) = 1
          ∧ List.length (outside_logging (run o)) <= 1)
  ∧ (∀ o, pure_forward o
          ↔ (∀ el, o ≠ op_removeAll el) ∧ o ≠ op_onDocumentReady).
Proof.
  split_and!; try done.
  - intros []; simpl; split; lia.
  - intros o. split.
    + intros Hp. split.
      * intros el ->. by apply (removeAll_not_pure_forward el).
      * intros ->. by apply onDocumentReady_not_pure_forward.
    + intros [Hr Hd].
      destruct o; try (eexists; split; [reflexivity|reflexivity]).
      * by destruct (Hr el).
      * done.
Qed.
End EventManagerFacts.

(** C6 as stated fails: [onDocumentReady] is an operation of the object
    and forwards nothing; logging apart it makes no call. *)
Lemma onDocumentReady_forwards_nothing :
  EventManager.outside_logging
    (EventManager.run (EventManager.op_onDocumentReady (element:=nat) (arg:=nat)))
  = []
  ∧ ¬ EventManager.pure_forward
        (EventManager.op_onDocumentReady (element:=nat) (arg:=nat)).
Proof.
  split; [reflexivity|]. intros (e & He & _). discriminate He.
Qed.

(** * Further properties of the code *)

(** ** The collection, once more *)

Section CollectionMoreFacts.
Context {A : Type} `{EqDecision A}.
Import Collection.
Implicit Types (c : Collection.t A) (x : A) (k : string)
  (l : list (string * A)).

Lemma lookup_entry_replace_other k k' x l :
  k' ≠ k -> lookup_entry k' (replace_entry k x l) = lookup_entry k' l.
Proof.
  intros Hne. induction l as [|[k0 y] l IH]; simpl; [done|].
  destruct (decide (k0 = k)) as [->|Hk0]; simpl.
  - destruct (decide (k = k')); [congruence|done].
  - destruct (decide (k0 = k')); [done|]. apply IH.
Qed.

Lemma lookup_entry_app_other k k' x l :
  k' ≠ k -> lookup_entry k' (l ++ [(k, x)]) = lookup_entry k' l.
Proof.
  intros Hne. induction l as [|[k0 y] l IH]; simpl.
  - by rewrite decide_False by congruence.
  - destruct (decide (k0 = k')); [done|]. apply IH.
Qed.

(** Adding an item leaves what is stored under every other key. *)
Lemma get_add_other k x c : k ≠ keyFn c x -> get k (add x c) = get k c.
Proof.
  intros Hne. unfold get, add; simpl. destruct (decide _).
  - by apply lookup_entry_replace_other.
  - by apply lookup_entry_app_other.
Qed.

(** Adding under a key that is present keeps the number of entries. *)
Lemma replace_entry_length k x l :
  List.length (replace_entry k x l) = List.length l.
Proof.
  induction l as [|[k0 y] l IH]; simpl; [done|].
  destruct (decide (k0 = k)); simpl; [done|]. by rewrite IH.
Qed.

(** With unique keys, the item a key leads to is the only one stored
    under it. *)
Lemma unique_keys_same_item k x y l :
  NoDup l.*1 -> (k, x) ∈ l -> (k, y) ∈ l -> x = y.
Proof.
  induction l as [|[k0 z] l IH]; csimpl; intros Hnd Hx Hy.
  - by apply elem_of_nil in Hx.
  - apply NoDup_cons in Hnd. destruct Hnd as [Hk0 Hnd].
    apply elem_of_cons in Hx. apply elem_of_cons in Hy.
    destruct Hx as [Hx|Hx], Hy as [Hy|Hy].
    + congruence.
    + injection Hx as <- <-. exfalso. apply Hk0.
      apply list_elem_of_fmap. by exists (k, y).
    + injection Hy as <- <-. exfalso. apply Hk0.
      apply list_elem_of_fmap. by exists (k, x).
    + by apply IH.
Qed.

(** After an item is added, no other item with the same key is stored,
    keys being unique. *)
Lemma add_replaces (getKey : A -> string) x y c :
  keyed_by getKey c -> unique_keys c ->
  getKey y = getKey x -> y ≠ x -> y ∉ items (add x c).
Proof.
  intros Hkey Hnd Hk Hne Hin.
  pose proof (add_keyed_by getKey x c Hkey) as [Hfn Hall].
  pose proof (add_unique_keys x c Hnd) as Hnd'.
  apply list_elem_of_fmap in Hin. destruct Hin as [[k z] [-> He]]. simpl in *.
  pose proof (proj1 (Forall_forall _ _) Hall _ He) as Hkz. simpl in Hkz.
  assert ((k, x) ∈ entries (add x c)) as Hx.
  { apply get_some_elem. rewrite Hkz, Hk. destruct Hkey as [<- _]. apply get_add. }
  apply Hne. by apply (unique_keys_same_item k z x (entries (add x c))).
Qed.
End CollectionMoreFacts.

(** ** The Manager: registering and removing providers *)

Section ManagerMoreFacts.
Context {F : Framework}.
Import Manager.

(** What one [addProvider] call with one argument leaves of the two
    collections. *)
Lemma addProvider_one_registers d p w :
  instantiated d w = Some p ->
  result (addProvider_one d) w = inr (some p)
  ∧ providers (exec (addProvider_one d) w) = Collection.add p (providers w)
  ∧ transactions (exec (addProvider_one d) w) = transactions w.
Proof.
  intros Hd. unfold result, exec.
  remember (addProvider_one d w) as r eqn:Hr.
  destruct w as [tx pv st cr cs].
  destruct d as [p'|c]; simpl in Hd; [injection Hd as ->|];
    run_in Hr; rewrite ?Hd in Hr; run_in Hr;
    rewrite ?lookup_insert_eq in Hr; simpl in Hr;
    destruct (connected (default fresh_provider (st !! provider_oid p)));
    simpl in Hr; subst r; simpl; done.
Qed.

Lemma get_in_keys {A} `{EqDecision A} k (x : A) (c : Collection.t A) :
  Collection.get k c = some x -> k ∈ Collection.keys c.
Proof.
  intros Hg. apply get_some_elem in Hg. apply list_elem_of_fmap.
  by exists (k, x).
Qed.

(** What [removeProvider] does with an id that leads to a provider. *)
Lemma removeProvider_registered_id id p w :
  Collection.get id (providers w) = some p ->
  result (removeProvider (ProviderId id)) w = inr (some p)
  ∧ new_calls (removeProvider (ProviderId id)) w = [call_un p data_listener]
  ∧ providers (exec (removeProvider (ProviderId id)) w)
    = Collection.remove (some p) (providers w)
  ∧ transactions (exec (removeProvider (ProviderId id)) w) = transactions w
  ∧ (data_listener ∉ listeners (state_of (exec (removeProvider (ProviderId id)) w) p)).
Proof.
  intros Hg. unfold result, new_calls, exec.
  remember (removeProvider (ProviderId id) w) as r eqn:Hr.
  destruct w as [tx pv st cr cs]. simpl in Hg. run_in Hr. rewrite Hg in Hr.
  run_in Hr. subst r. simpl. split_and!; try done.
  - by rewrite drop_app_length.
  - unfold state_of; simpl. rewrite lookup_insert_eq; simpl.
    intros Hin. apply list_elem_of_filter in Hin. destruct Hin as [Hne _].
    by apply Hne.
Qed.

(** X1: a provider registered by [addProvider] is what [getProvider]
    returns for its id afterwards, and what [getProvider] returns for
    every other id is as before. *)
Theorem addProvider_then_getProvider d p w :
  invariant w ->
  instantiated d w = Some p ->
  let w' := exec (addProvider [d]) w in
  result (getProvider (ProviderId (getId p))) w' = inr (some p)
  ∧ (∀ k, k ≠ getId p ->
          result (getProvider (ProviderId k)) w'
          = result (getProvider (ProviderId k)) w).
Proof.
  intros (_ & _ & [Hkey _] & _) Hd w'. subst w'. rewrite addProvider_single.
  destruct (addProvider_one_registers d p w Hd) as (_ & Hp & _).
  unfold result at 1 2. unfold getProvider. run_m. fold (exec (addProvider_one d) w).
  rewrite Hp. split.
  - f_equal. rewrite <- (get_add p (providers w)). by rewrite Hkey.
  - intros k Hk. unfold result. run_m. f_equal. apply get_add_other.
    by rewrite Hkey.
Qed.

(** X2: removing by id a provider that [addProvider] has just registered
    returns that provider, calls [un] for the Manager's 'data' listener on
    it and nothing else, and leaves neither the provider in the registry
    nor the listener on the provider; [getProvider] then finds nothing
    under the id. *)
Theorem addProvider_then_removeProvider d p w :
  invariant w ->
  instantiated d w = Some p ->
  let w1 := exec (addProvider [d]) w in
  let w2 := exec (removeProvider (ProviderId (getId p))) w1 in
  result (removeProvider (ProviderId (getId p))) w1 = inr (some p)
  ∧ new_calls (removeProvider (ProviderId (getId p))) w1
    = [call_un p data_listener]
  ∧ (p ∉ Collection.items (providers w2))
  ∧ (data_listener ∉ listeners (state_of w2 p))
  ∧ result (getProvider (ProviderId (getId p))) w2 = inr undefined.
Proof.
  intros (_ & _ & [Hkey Hall] & Huniq) Hd w1 w2.
  assert (providers w1 = Collection.add p (providers w)) as Hw1.
  { subst w1. rewrite addProvider_single.
    by destruct (addProvider_one_registers d p w Hd) as (_ & Hp & _). }
  clearbody w1.
  assert (Collection.get (getId p) (providers w1) = some p) as Hg.
  { rewrite Hw1, <- (get_add p (providers w)). by rewrite Hkey. }
  destruct (removeProvider_registered_id _ _ _ Hg) as (Hres & Hmade & Hw2 & _ & Hl).
  fold w2 in Hw2, Hl. clearbody w2. split_and!; try done.
  - rewrite Hw2. apply remove_items.
  - unfold result, getProvider. run_m. rewrite Hw2. f_equal.
    apply get_remove; [|by apply get_some_elem].
    rewrite Hw1. by apply add_unique_keys.
Qed.

(** X3: when the class system has no class for the config's type,
    [addProvider] throws after the one call to [Ext.create]: nothing is
    registered, no listener is added, no provider is asked anything. *)
Theorem addProvider_unknown_type c w :
  Ext_create ("direct." +:+ type c +:+ "provider") c (created w) = None ->
  let w' := exec (addProvider [Config c]) w in
  result (addProvider [Config c]) w
  = inl (ClassNotFound ("direct." +:+ type c +:+ "provider"))
  ∧ new_calls (addProvider [Config c]) w
    = [call_create ("direct." +:+ type c +:+ "provider") c]
  ∧ providers w' = providers w
  ∧ transactions w' = transactions w
  ∧ store w' = store w
  ∧ created w' = created w.
Proof.
  intros Hc w'. subst w'. rewrite addProvider_single.
  unfold result, new_calls, exec.
  remember (addProvider_one (Config c) w) as r eqn:Hr.
  destruct w as [tx pv st cr cs]. simpl in Hc. run_in Hr. rewrite Hc in Hr.
  run_in Hr. subst r. simpl. split_and!; try done.
  by rewrite drop_app_length.
Qed.

Lemma one_call_each_app pre post w :
  one_call_each (pre ++ post) w
  = match (one_call_each pre w).2 with
    | None => one_call_each post (one_call_each pre w).1
    | Some e => one_call_each pre w
    end.
Proof.
  revert w. induction pre as [|a pre IH]; intros w; simpl; [done|].
  destruct (addProvider [a] w) as [w' [e|v]]; simpl; [done|]. apply IH.
Qed.

(** X4: [addProvider] with several arguments is not all-or-nothing.  When
    the arguments before [d] are registered without an exception and [d]
    throws, the call throws the same exception and leaves the world in
    which [d] threw: the earlier arguments stay registered and the later
    ones are never looked at. *)
Theorem addProvider_stops_at_first_failure pre d post e w :
  1 < length (pre ++ d :: post) ->
  (one_call_each pre w).2 = None ->
  result (addProvider [d]) (one_call_each pre w).1 = inl e ->
  exec (addProvider (pre ++ d :: post)) w
  = exec (addProvider [d]) (one_call_each pre w).1
  ∧ result (addProvider (pre ++ d :: post)) w = inl e.
Proof.
  intros Hl Hpre Hd. rewrite (addProvider_several _ Hl). unfold exec, result.
  unfold bind at 1 3. rewrite for_each_one_call_each, one_call_each_app, Hpre.
  simpl. unfold result in Hd.
  destruct (addProvider [d] (one_call_each pre w).1) as [w' [e'|v]];
    simpl in *; [|done]. by injection Hd as ->.
Qed.
(** The world one [addProvider] call leaves when it is given an instance:
    the registry has the instance, its entry in the store has one more
    listener, and two or three calls were made on it. *)
Lemma addProvider_one_instance q w :
  ∃ s cs,
    addProvider_one (Instance q) w
    = ({| transactions := transactions w;
          providers := Collection.add q (providers w);
          store := <[provider_oid q := s]> (store w);
          created := created w;
          calls := calls w ++ cs |}, inr (some q))
    ∧ listeners s = listeners (state_of w q) ++ [data_listener]
    ∧ (cs = [call_on q data_listener; call_isConnected q]
       ∨ cs = [call_on q data_listener; call_isConnected q; call_connect q]).
Proof.
  remember (addProvider_one (Instance q) w) as r eqn:Hr.
  destruct w as [tx pv st cr cs0]. run_in Hr.
  rewrite ?lookup_insert_eq in Hr. simpl in Hr.
  destruct (connected (default fresh_provider (st !! provider_oid q)));
    simpl in Hr; rewrite ?lookup_insert_eq, ?insert_insert_eq in Hr;
    simpl in Hr; subst r; eexists _, _; simpl;
    (split; [rewrite <- ?app_assoc; reflexivity|]); simpl; auto.
Qed.

(** The operations on providers leave the transactions alone, and
    [getProvider] changes nothing at all; this holds for [addProvider]
    whatever the number of its arguments and also when it throws. *)
Lemma provider_operations_keep_transactions :
  (∀ args w, transactions (exec (addProvider args) w) = transactions w)
  ∧ (∀ r w, transactions (exec (removeProvider r) w) = transactions w)
  ∧ (∀ r w, exec (getProvider r) w = w).
Proof.
  assert (∀ d w, transactions (exec (addProvider_one d) w) = transactions w)
    as Hone.
  { intros d w. unfold exec. remember (addProvider_one d w) as r eqn:Hr.
    destruct w as [tx pv st cr cs]. run_in Hr. destruct d as [p|c].
    - rewrite ?lookup_insert_eq in Hr. simpl in Hr.
      destruct (connected _); simpl in Hr; by subst r.
    - destruct (Ext_create _ c cr) as [p|]; run_in Hr;
        rewrite ?lookup_insert_eq in Hr; simpl in Hr; [|by subst r].
      destruct (connected _); simpl in Hr; by subst r. }
  split_and!.
  - intros args w. destruct (decide (1 < length args)) as [Hl|Hl].
    + rewrite (addProvider_several _ Hl). unfold exec, bind at 1.
      rewrite for_each_one_call_each.
      transitivity (transactions (one_call_each args w).1).
      { by destruct (one_call_each args w) as [w' [e|]]. }
      clear Hl. revert w. induction args as [|a args IH]; intros w; simpl; [done|].
      specialize (Hone a w). rewrite <- addProvider_single in Hone.
      unfold exec in Hone.
      destruct (addProvider [a] w) as [w' [e|v]]; simpl in *; [done|].
      by rewrite IH.
    + destruct args as [|d [|d' args]]; simpl in Hl; [| |lia].
      * by rewrite addProvider_none.
      * rewrite addProvider_single. apply Hone.
  - intros r w. unfold exec. remember (removeProvider r w) as x eqn:Hx.
    destruct w as [tx pv st cr cs]. run_in Hx. destruct r as [id|p].
    + destruct (Collection.get id pv); run_in Hx; by subst x.
    + by subst x.
  - by intros [id|p] w.
Qed.

(** The operations on transactions touch the transactions collection
    only, and [getTransaction] changes nothing at all. *)
Lemma transaction_operations_touch_transactions_only :
  (∀ t w, let w' := exec (addTransaction t) w in
          providers w' = providers w ∧ store w' = store w
          ∧ created w' = created w ∧ calls w' = calls w)
  ∧ (∀ r w, let w' := exec (removeTransaction r) w in
            providers w' = providers w ∧ store w' = store w
            ∧ created w' = created w ∧ calls w' = calls w)
  ∧ (∀ r w, exec (getTransaction r) w = w).
Proof.
  split_and!.
  - by intros t w.
  - by intros [id|t] w.
  - by intros [id|t] w.
Qed.

(** X5: the two registries are kept apart.  The operations on providers
    leave the transactions alone, whatever the number of arguments of
    [addProvider] and also when it throws; the operations on transactions
    leave the providers, the provider objects and the call log alone (they
    call nothing); and the two lookups change nothing at all. *)
Theorem operations_keep_to_their_collection :
  (∀ args w, transactions (exec (addProvider args) w) = transactions w)
  ∧ (∀ r w, transactions (exec (removeProvider r) w) = transactions w)
  ∧ (∀ t w, let w' := exec (addTransaction t) w in
            providers w' = providers w ∧ store w' = store w
            ∧ created w' = created w ∧ calls w' = calls w)
  ∧ (∀ r w, let w' := exec (removeTransaction r) w in
            providers w' = providers w ∧ store w' = store w
            ∧ created w' = created w ∧ calls w' = calls w)
  ∧ (∀ r w, exec (getProvider r) w = w)
  ∧ (∀ r w, exec (getTransaction r) w = w).
Proof.
  destruct provider_operations_keep_transactions as (Hadd & Hrem & Hget).
  destruct transaction_operations_touch_transactions_only
    as (Haddt & Hremt & Hgett).
  by split_and!.
Qed.

(** X6: [removeTransaction] with an id under which nothing is stored
    returns [undefined] (not [null], as [removeProvider] does) and leaves
    the world as it was; with a transaction object that was never added it
    returns that object and leaves the collection as it was. *)
Theorem removeTransaction_of_unknown :
  (∀ id w, id ∉ Collection.keys (transactions w) ->
           removeTransaction (TransactionId id) w = (w, inr undefined))
  ∧ (∀ t w, t ∉ Collection.items (transactions w) ->
            result (removeTransaction (TransactionInstance t)) w = inr (some t)
            ∧ exec (removeTransaction (TransactionInstance t)) w = w).
Proof.
  split.
  - intros id w Hid. unfold removeTransaction, getTransaction. run_m.
    rewrite (get_absent id (transactions w) Hid). by destruct w.
  - intros t w Ht. split; [done|]. unfold exec.
    remember (removeTransaction (TransactionInstance t) w) as x eqn:Hx.
    destruct w as [tx pv st cr cs]. simpl in Ht. run_in Hx.
    rewrite (remove_absent t tx Ht) in Hx. by subst x.
Qed.

(** X7: registering a second provider object under an id that is taken
    puts it in the place of the first: the id now leads to the new one,
    the old one is out of the registry, and the registry has as many
    entries as before.  The old provider is not unsubscribed: no [un] is
    called and its listeners are as they were. *)
Theorem addProvider_replaces_same_id p q w :
  invariant w ->
  Collection.get (getId p) (providers w) = some p ->
  getId q = getId p ->
  provider_oid q ≠ provider_oid p ->
  let w' := exec (addProvider [Instance q]) w in
  result (getProvider (ProviderId (getId p))) w' = inr (some q)
  ∧ (p ∉ Collection.items (providers w'))
  ∧ List.length (Collection.entries (providers w'))
    = List.length (Collection.entries (providers w))
  ∧ state_of w' p = state_of w p
  ∧ (∀ l, call_un p l ∉ new_calls (addProvider [Instance q]) w).
Proof.
  intros (_ & _ & Hkeyed & Huniq) Hg Hid Hoid w'. subst w'.
  rewrite addProvider_single. unfold result, new_calls, exec.
  destruct (addProvider_one_instance q w) as (s & cs & -> & _ & Hcs). simpl.
  pose proof Hkeyed as [Hkey _].
  split_and!.
  - unfold getProvider. run_m. f_equal. rewrite <- Hid.
    rewrite <- (get_add q (providers w)). by rewrite Hkey.
  - apply (add_replaces getKey); try done. intros ->. by apply Hoid.
  - unfold Collection.add; simpl. rewrite decide_True.
    + apply replace_entry_length.
    + rewrite Hkey. unfold getKey. rewrite Hid. by apply (get_in_keys _ p).
  - unfold state_of; simpl. by rewrite lookup_insert_ne.
  - intros l Hin. rewrite drop_app_length in Hin.
    destruct Hcs as [-> | ->];
      repeat (apply elem_of_cons in Hin; destruct Hin as [Heq|Hin];
              [discriminate Heq|]);
      by apply elem_of_nil in Hin.
Qed.
Lemma addProvider_instance_world q w :
  ∃ s cs,
    addProvider [Instance q] w
    = ({| transactions := transactions w;
          providers := Collection.add q (providers w);
          store := <[provider_oid q := s]> (store w);
          created := created w;
          calls := calls w ++ cs |}, inr (some q))
    ∧ listeners s = listeners (state_of w q) ++ [data_listener].
Proof.
  rewrite addProvider_single.
  destruct (addProvider_one_instance q w) as (s & cs & Hrun & Hl & _).
  by exists s, cs.
Qed.

(** Registering an instance takes no listener off any provider. *)
Lemma addProvider_instance_keeps_listeners q w p l :
  l ∈ listeners (state_of w p) ->
  l ∈ listeners (state_of (addProvider [Instance q] w).1 p).
Proof.
  intros Hl. destruct (addProvider_instance_world q w) as (s & cs & -> & Hs).
  unfold state_of in *; simpl.
  destruct (decide (provider_oid q = provider_oid p)) as [Heq|Hne].
  - rewrite Heq, lookup_insert_eq; simpl. rewrite Hs, Heq.
    apply elem_of_app. by left.
  - by rewrite lookup_insert_ne.
Qed.

Lemma one_call_each_instances ps :
  ∀ w,
    (one_call_each (Instance <$> ps) w).2 = None
    ∧ (∀ p l, l ∈ listeners (state_of w p) ->
              l ∈ listeners (state_of (one_call_each (Instance <$> ps) w).1 p))
    ∧ (∀ p, p ∈ ps ->
            data_listener
            ∈ listeners (state_of (one_call_each (Instance <$> ps) w).1 p))
    ∧ Collection.keyFn (providers (one_call_each (Instance <$> ps) w).1)
      = Collection.keyFn (providers w)
    ∧ (∀ p, last ps = Some p ->
            Collection.get (Collection.keyFn (providers w) p)
              (providers (one_call_each (Instance <$> ps) w).1) = some p).
Proof.
  induction ps as [|q ps IH]; intros w; csimpl.
  - split_and!; try done. intros p Hp. by apply elem_of_nil in Hp.
  - pose proof (addProvider_instance_keeps_listeners q w) as Hkeep.
    destruct (addProvider_instance_world q w) as (s & cs & Hrun & Hs).
    rewrite Hrun in *. simpl in Hkeep.
    set (w1 := {| transactions := transactions w;
                  providers := Collection.add q (providers w);
                  store := <[provider_oid q:=s]> (store w);
                  created := created w; calls := calls w ++ cs |}) in *.
    destruct (IH w1) as (Hnone & Hgrow & Hsub & Hfn & Hlast).
    split_and!; try done.
    + intros p l Hl. by apply Hgrow, Hkeep.
    + intros p Hp. apply elem_of_cons in Hp. destruct Hp as [->|Hp]; [|by apply Hsub].
      apply Hgrow. unfold state_of, w1; simpl. rewrite lookup_insert_eq; simpl.
      rewrite Hs. apply elem_of_app. right. left.
    + intros p Hp. destruct ps as [|q' ps].
      * injection Hp as <-. simpl. apply get_add.
      * by apply Hlast.
Qed.

(** X8: after [addProvider] is called with provider instances only, one
    or several, every one of them carries the Manager's 'data' listener,
    and the registry leads to the last argument under the key of that
    argument. *)
Theorem addProvider_instances ps w :
  ps ≠ [] ->
  let w' := exec (addProvider (Instance <$> ps)) w in
  (∀ p, p ∈ ps -> data_listener ∈ listeners (state_of w' p))
  ∧ (∀ p, last ps = Some p ->
          Collection.get (Collection.keyFn (providers w) p) (providers w')
          = some p).
Proof.
  intros Hne w'.
  destruct (one_call_each_instances ps w) as (Hnone & _ & Hsub & _ & Hlast).
  assert (w' = (one_call_each (Instance <$> ps) w).1) as Hw'.
  { subst w'. destruct ps as [|p [|q ps]]; [done| |].
    - csimpl. unfold exec.
      by destruct (addProvider_instance_world p w) as (s & cs & -> & _).
    - assert (1 < length (Instance <$> p :: q :: ps)) as Hl by (csimpl; lia).
      rewrite (addProvider_several _ Hl). unfold exec.
      unfold bind at 1. by rewrite for_each_one_call_each, Hnone. }
  rewrite Hw'. by split.
Qed.
End ManagerMoreFacts.

(** ** The Manager: relaying events *)

Section RelayFacts.
Import Manager.

(** What [onProviderData] fires does not depend on the world, and the
    world gets the calls and nothing else. *)
Lemma onProviderData_uniform provider event :
  ∃ cs, ∀ w, onProviderData provider event w = (add_calls cs w, inr tt).
Proof.
  induction event as [e|l IH] using EventData_nested_ind.
  - eexists. intros w. apply onProviderData_Single.
  - simpl. induction IH as [|ev l [cs1 Hev] _ [cs2 IHl]].
    + exists []. intros w. by rewrite add_calls_nil.
    + exists (cs1 ++ cs2). intros w. simpl. unfold bind at 1.
      rewrite Hev. simpl in IHl. by rewrite IHl, add_calls_add_calls.
Qed.

(** X9: what [onProviderData] fires is the same in every state of the
    Manager (registries, provider objects, earlier log), and an empty
    array fires nothing and leaves the world as it is. *)
Theorem onProviderData_state_independent :
  (∀ provider event w w0,
      new_calls (onProviderData provider event) w
      = new_calls (onProviderData provider event) w0)
  ∧ (∀ provider w, onProviderData provider (Multiple []) w = (w, inr tt)).
Proof.
  split.
  - intros provider event w w0.
    destruct (onProviderData_uniform provider event) as [cs Hcs].
    by rewrite (new_calls_add_calls _ _ _ _ (Hcs w)),
      (new_calls_add_calls _ _ _ _ (Hcs w0)).
  - done.
Qed.

Lemma for_each_app {A} (body : A -> M unit) l1 l2 w :
  for_each body (l1 ++ l2) w
  = bind (for_each body l1) (λ _, for_each body l2) w.
Proof.
  revert w. induction l1 as [|a l1 IH]; intros w; simpl; [done|].
  unfold bind. destruct (body a w) as [w' [e|v]]; [done|].
  rewrite IH. by unfold bind.
Qed.

Lemma new_calls_Multiple_app provider l1 l2 w :
  new_calls (onProviderData provider (Multiple (l1 ++ l2))) w
  = new_calls (onProviderData provider (Multiple l1)) w
    ++ new_calls (onProviderData provider (Multiple l2)) w.
Proof.
  destruct (onProviderData_uniform provider (Multiple l1)) as [cs1 H1].
  destruct (onProviderData_uniform provider (Multiple l2)) as [cs2 H2].
  rewrite (new_calls_add_calls _ _ _ _ (H1 w)),
    (new_calls_add_calls _ _ _ _ (H2 w)).
  apply (new_calls_add_calls _ _ _ (inr tt)).
  simpl in *. rewrite for_each_app. unfold bind. rewrite H1, H2.
  by rewrite add_calls_add_calls.
Qed.
Lemma new_calls_Multiple_one provider event w :
  new_calls (onProviderData provider (Multiple [event])) w
  = new_calls (onProviderData provider event) w.
Proof.
  destruct (onProviderData_uniform provider event) as [cs Hcs].
  rewrite (new_calls_add_calls _ _ _ _ (Hcs w)).
  apply (new_calls_add_calls _ _ _ (inr tt)). simpl. unfold bind.
  by rewrite Hcs.
Qed.

(** X10: an array is relayed as the sequence of its events.  What is
    fired for two arrays joined is what is fired for the first followed by
    what is fired for the second, and what is fired for an array with
    arrays inside is what is fired for the flat array of its events. *)
Theorem onProviderData_array_is_sequence :
  (∀ provider l1 l2 w,
      new_calls (onProviderData provider (Multiple (l1 ++ l2))) w
      = new_calls (onProviderData provider (Multiple l1)) w
        ++ new_calls (onProviderData provider (Multiple l2)) w)
  ∧ (∀ provider event w,
        new_calls (onProviderData provider event) w
        = new_calls
            (onProviderData provider (Multiple (Single <$> events_of event))) w).
Proof.
  split; [apply new_calls_Multiple_app|]. intros provider event.
  induction event as [e|l IH] using EventData_nested_ind; intros w.
  - change (Single <$> events_of (Single e)) with [Single e].
    by rewrite new_calls_Multiple_one.
  - induction IH as [|ev l Hev _ IHl]; [done|].
    change (Multiple (ev :: l)) with (Multiple ([ev] ++ l)).
    rewrite new_calls_Multiple_app, new_calls_Multiple_one, Hev, IHl.
    simpl events_of. rewrite fmap_app. by rewrite new_calls_Multiple_app.
Qed.

(** Where the 'exception' calls of a relay come from. *)
Lemma exception_calls provider event :
  ∃ cs,
    (∀ w, onProviderData provider event w = (add_calls cs w, inr tt))
    ∧ ∀ args,
        call_fireEvent "exception" args ∈ cs
        ↔ ∃ e, e ∈ events_of event ∧ args = [arg_event e]
               ∧ getStatus e = some false ∧ plain_name (getName e).
Proof.
  induction event as [e|l IH] using EventData_nested_ind.
  - eexists. split; [intros w; apply onProviderData_Single|]. intros args.
    destruct (truthy_str _ && _ && _) eqn:Hn.
    + destruct (named_not_plain _ Hn) as [Hnp Hne]. split.
      * intros Hin. simpl in Hin.
        apply elem_of_cons in Hin. destruct Hin as [Heq|Hin]; [congruence|].
        apply elem_of_cons in Hin. destruct Hin as [Heq|Hin]; [discriminate Heq|].
        by apply elem_of_nil in Hin.
      * intros (e' & He' & _ & _ & Hpl). simpl in He'.
        apply list_elem_of_singleton in He'. by subst e'.
    + pose proof (not_named_plain _ Hn) as Hpl.
      destruct (is_false (getStatus e)) eqn:Hs; simpl.
      * apply is_false_spec in Hs. split.
        -- intros Hin.
           apply elem_of_cons in Hin. destruct Hin as [Heq|Hin].
           ++ injection Heq as ->. exists e. split_and!; try done. left.
           ++ apply elem_of_cons in Hin.
              destruct Hin as [Heq|Hin]; [discriminate Heq|].
              by apply elem_of_nil in Hin.
        -- intros (e' & He' & -> & _). apply list_elem_of_singleton in He'.
           subst e'. left.
      * split.
        -- intros Hin. apply elem_of_cons in Hin.
           destruct Hin as [Heq|Hin]; [discriminate Heq|].
           by apply elem_of_nil in Hin.
        -- intros (e' & He' & _ & Hst & _). apply list_elem_of_singleton in He'.
           subst e'. apply is_false_spec in Hst. congruence.
  - simpl. induction IH as [|ev l (cs1 & Hrun1 & Hin1) _ (cs2 & Hrun2 & Hin2)].
    + exists []. split; [intros w; by rewrite add_calls_nil|]. intros args. split.
      * intros Hin. by apply elem_of_nil in Hin.
      * intros (e & He & _). by apply elem_of_nil in He.
    + exists (cs1 ++ cs2). split.
      * intros w. simpl. unfold bind at 1. rewrite Hrun1.
        simpl in Hrun2. by rewrite Hrun2, add_calls_add_calls.
      * intros args. rewrite elem_of_app, Hin1, Hin2. simpl. split.
        -- intros [(e & He & Hrest)|(e & He & Hrest)]; exists e;
             (split; [|done]); apply elem_of_app; auto.
        -- intros (e & He & Hrest). apply elem_of_app in He.
           destruct He as [He|He]; [left|right]; by exists e.
Qed.

(** X11: in what [onProviderData] fires, the 'exception' events are
    exactly those of the delivered events whose status flag is false and
    whose name is absent, empty, 'event' or 'exception', each carrying its
    event alone; no other event is ever announced as an exception. *)
Theorem onProviderData_exceptions provider event w args :
  call_fireEvent "exception" args ∈ new_calls (onProviderData provider event) w
  ↔ ∃ e, e ∈ events_of event ∧ args = [arg_event e]
         ∧ getStatus e = some false ∧ plain_name (getName e).
Proof.
  destruct (exception_calls provider event) as (cs & Hrun & Hin).
  by rewrite (new_calls_add_calls _ _ _ _ (Hrun w)).
Qed.
End RelayFacts.

(** ** parseMethod, once more *)

Section DirectMoreFacts.
Context {G : Globals}.
Import Direct.

(** X12: whatever function [parseMethod] returns for a string is the value
    the dot-separated path names from [window], and every value met on
    the way to it is truthy. *)
Theorem parseMethod_returns_what_the_path_names s f :
  parseMethod (fn_string s) = inr (v_function f) ->
  path_value window (split s) = Some (v_function f)
  ∧ Forall (λ u, truthy u = true) (values_before window (split s)).
Proof.
  intros Hp.
  destruct (parseMethod_outcome s)
    as [(v & Hv & Hcases)|(e & _ & _ & _ & _ & _ & _ & _ & _ & He & _)];
    [|congruence].
  rewrite Hp in Hv. assert (v = v_function f) as ->.
  { destruct (Ext_isFunction v); [congruence|discriminate Hv]. }
  destruct Hcases as [[Hall Hpath]|[_ Hf]]; [done|discriminate Hf].
Qed.

Lemma split_no_dot s :
  "."%char ∉ list_ascii_of_string s -> split s = [s].
Proof.
  induction s as [|c s IH]; simpl; [done|]. intros Hn.
  destruct (decide (c = "."%char)) as [->|Hc].
  - exfalso. apply Hn. left.
  - rewrite IH; [done|]. intros Hin. apply Hn. by right.
Qed.

(** X13: a name without a dot is looked up once, in [window]: the result
    is [window[name]] when that is a function and [null] otherwise (the
    empty name included), and when the lookup raises, its exception. *)
Theorem parseMethod_plain_name s :
  "."%char ∉ list_ascii_of_string s ->
  truthy window = true ->
  parseMethod (fn_string s)
  = match member window s with
    | inr v => inr (if Ext_isFunction v then v else v_null)
    | inl e => inl e
    end.
Proof.
  intros Hs Hw. unfold parseMethod. rewrite (split_no_dot s Hs). simpl.
  rewrite Hw, (get_member_truthy _ _ Hw).
  destruct (member window s) as [e|v]; [done|].
  destruct (Ext_isFunction v) eqn:Hf; [|done].
  by rewrite (function_truthy _ Hf).
Qed.

(** X14: [split] loses nothing of the string: the pieces joined with dots
    are the string again, there is always at least one piece (one more
    than there are dots), and no piece has a dot in it. *)
Theorem split_concat s :
  String.concat "." (split s) = s
  ∧ List.length (split s)
    = S (List.length (List.filter (λ c, bool_decide (c = "."%char))
                        (list_ascii_of_string s)))
  ∧ Forall (λ part, "."%char ∉ list_ascii_of_string part) (split s).
Proof.
  induction s as [|c s (IHc & IHl & IHf)]; simpl.
  - split_and!; [done|done|]. repeat constructor. intros Hin.
    by apply elem_of_nil in Hin.
  - destruct (decide (c = "."%char)) as [->|Hc].
    + rewrite bool_decide_eq_true_2 by done. split_and!.
      * destruct (split s) as [|part parts] eqn:Hsp; [discriminate IHl|].
        simpl in *. by rewrite IHc.
      * simpl. by rewrite IHl.
      * constructor; [|done]. intros Hin. by apply elem_of_nil in Hin.
    + rewrite bool_decide_eq_false_2 by done.
      destruct (split s) as [|part parts] eqn:Hsp; [discriminate IHl|].
      split_and!.
      * simpl in *. rewrite <- IHc. by destruct parts.
      * done.
      * apply Forall_cons in IHf. destruct IHf as [Hpart Hparts].
        constructor; [|done]. simpl. intros Hin.
        apply elem_of_cons in Hin. destruct Hin as [Heq|Hin]; [congruence|done].
Qed.
End DirectMoreFacts.

(** ** The further properties at sample inputs *)

Section ManagerMoreSamples.
Import Manager Sample MoreSamples.
Local Existing Instance polling_only.

(** X1 at a config of the polling provider, in a fresh Manager. *)
Lemma addProvider_then_getProvider_witness :
  invariant (constructor ∅)
  ∧ instantiated (Config polling_config) (constructor ∅) = Some first_created
  ∧ result (getProvider (ProviderId "poll"))
      (exec (addProvider [Config polling_config]) (constructor ∅))
    = inr (some first_created).
Proof.
  assert (invariant (constructor ∅)) as Hi by apply invariant_constructor.
  assert (instantiated (Config polling_config) (constructor ∅)
          = Some first_created) as Hd by reflexivity.
  split; [exact Hi|]. split; [exact Hd|].
  exact (proj1 (addProvider_then_getProvider (Config polling_config)
                  first_created (constructor ∅) Hi Hd)).
Defined.

(** X2 at [provider_a] in a fresh Manager. *)
Lemma addProvider_then_removeProvider_witness :
  invariant (constructor ∅)
  ∧ instantiated (Instance provider_a) (constructor ∅) = Some provider_a
  ∧ result (removeProvider (ProviderId "a")) with_provider_a
    = inr (some provider_a)
  ∧ result (getProvider (ProviderId "a"))
      (exec (removeProvider (ProviderId "a")) with_provider_a)
    = inr undefined.
Proof.
  assert (invariant (constructor ∅)) as Hi by apply invariant_constructor.
  assert (instantiated (Instance provider_a) (constructor ∅)
          = Some provider_a) as Hd by reflexivity.
  split; [exact Hi|]. split; [exact Hd|].
  destruct (addProvider_then_removeProvider (Instance provider_a) provider_a
              (constructor ∅) Hi Hd) as (Hres & _ & _ & _ & Hgone).
  split; [exact Hres|exact Hgone].
Defined.

(** X3 at a remoting config, which the sample class system does not
    know. *)
Lemma addProvider_unknown_type_witness :
  Ext_create ("direct." +:+ type remoting_config +:+ "provider")
    remoting_config (created (constructor ∅)) = None
  ∧ result (addProvider [Config remoting_config]) (constructor ∅)
    = inl (ClassNotFound "direct.remotingprovider")
  ∧ providers (exec (addProvider [Config remoting_config]) (constructor ∅))
    = providers (constructor ∅).
Proof.
  assert (Ext_create ("direct." +:+ type remoting_config +:+ "provider")
            remoting_config (created (constructor ∅)) = None) as H
    by reflexivity.
  split; [exact H|].
  destruct (addProvider_unknown_type remoting_config (constructor ∅) H)
    as (Hres & _ & Hp & _).
  split; [exact Hres|exact Hp].
Defined.

(** X4 at [provider_a], a remoting config and [provider_b]: the call
    throws, [provider_a] is registered and [provider_b] is not. *)
Lemma addProvider_stops_at_first_failure_witness :
  1 < length ([Instance provider_a] ++ Config remoting_config :: [Instance provider_b])
  ∧ (one_call_each [Instance provider_a] (constructor ∅)).2 = None
  ∧ result (addProvider [Config remoting_config])
      (one_call_each [Instance provider_a] (constructor ∅)).1
    = inl (ClassNotFound "direct.remotingprovider")
  ∧ result (addProvider ([Instance provider_a] ++ Config remoting_config
                         :: [Instance provider_b])) (constructor ∅)
    = inl (ClassNotFound "direct.remotingprovider")
  ∧ Collection.keys
      (providers (exec (addProvider ([Instance provider_a] ++ Config remoting_config
                                     :: [Instance provider_b])) (constructor ∅)))
    = ["a"].
Proof.
  assert (1 < length ([Instance provider_a] ++ Config remoting_config
                      :: [Instance provider_b])) as Hl by (simpl; lia).
  assert ((one_call_each [Instance provider_a] (constructor ∅)).2 = None) as Hpre
    by (by vm_compute).
  assert (result (addProvider [Config remoting_config])
            (one_call_each [Instance provider_a] (constructor ∅)).1
          = inl (ClassNotFound "direct.remotingprovider")) as Hd
    by (by vm_compute).
  split; [exact Hl|]. split; [exact Hpre|]. split; [exact Hd|].
  destruct (addProvider_stops_at_first_failure [Instance provider_a]
              (Config remoting_config) [Instance provider_b] _ (constructor ∅)
              Hl Hpre Hd) as [Hexec Hres].
  split; [exact Hres|]. rewrite Hexec. by vm_compute.
Defined.

(** X7 at a second provider object with the id [a], when [provider_a] is
    registered. *)
Lemma addProvider_replaces_same_id_witness :
  invariant with_provider_a
  ∧ Collection.get (getId provider_a) (providers with_provider_a) = some provider_a
  ∧ getId provider_a_again = getId provider_a
  ∧ provider_oid provider_a_again ≠ provider_oid provider_a
  ∧ result (getProvider (ProviderId (getId provider_a)))
      (exec (addProvider [Instance provider_a_again]) with_provider_a)
    = inr (some provider_a_again)
  ∧ (provider_a
     ∉ Collection.items
         (providers (exec (addProvider [Instance provider_a_again]) with_provider_a))).
Proof.
  assert (invariant with_provider_a) as Hi.
  { apply preserves_addProvider, invariant_constructor. }
  assert (Collection.get (getId provider_a) (providers with_provider_a)
          = some provider_a) as Hg by (by vm_compute).
  assert (getId provider_a_again = getId provider_a) as Hid by reflexivity.
  assert (provider_oid provider_a_again ≠ provider_oid provider_a) as Hoid
    by (simpl; lia).
  split; [exact Hi|]. split; [exact Hg|]. split; [exact Hid|].
  split; [exact Hoid|].
  destruct (addProvider_replaces_same_id provider_a provider_a_again
              with_provider_a Hi Hg Hid Hoid) as (Hnew & Hold & _).
  split; [exact Hnew|exact Hold].
Defined.

(** X8 at [provider_a] and [provider_b] in a fresh Manager. *)
Lemma addProvider_instances_witness :
  [provider_a; provider_b] ≠ []
  ∧ data_listener
    ∈ listeners
        (state_of (exec (addProvider (Instance <$> [provider_a; provider_b]))
                     (constructor ∅)) provider_a)
  ∧ Collection.get "b"
      (providers (exec (addProvider (Instance <$> [provider_a; provider_b]))
                    (constructor ∅)))
    = some provider_b.
Proof.
  assert ([provider_a; provider_b] ≠ []) as H by done.
  split; [exact H|].
  destruct (addProvider_instances [provider_a; provider_b] (constructor ∅) H)
    as (Hsub & Hlast).
  split; [apply Hsub; left|]. exact (Hlast provider_b eq_refl).
Defined.
End ManagerMoreSamples.

Section DirectMoreSamples.
Import Direct.

(** X12 at [MyApp.Person.read] in the sample browser window. *)
Lemma parseMethod_returns_what_the_path_names_witness :
  parseMethod (G:=Sample.browser) (fn_string "MyApp.Person.read")
  = inr (v_function 3)
  ∧ path_value (G:=Sample.browser) (window (Globals:=Sample.browser))
      (split "MyApp.Person.read")
    = Some (v_function 3).
Proof.
  assert (parseMethod (G:=Sample.browser) (fn_string "MyApp.Person.read")
          = inr (v_function 3)) as H by (by vm_compute).
  split; [exact H|].
  exact (proj1 (parseMethod_returns_what_the_path_names
                  (G:=Sample.browser) "MyApp.Person.read" 3 H)).
Defined.

(** X13 at [alert] in the sample page. *)
Lemma parseMethod_plain_name_witness :
  ("."%char ∉ list_ascii_of_string "alert")
  ∧ truthy (window (Globals:=MoreSamples.page)) = true
  ∧ parseMethod (G:=MoreSamples.page) (fn_string "alert") = inr (v_function 7).
Proof.
  assert ("."%char ∉ list_ascii_of_string "alert") as Hs.
  { apply (bool_decide_unpack _). by vm_compute. }
  assert (truthy (window (Globals:=MoreSamples.page)) = true) as Hw
    by reflexivity.
  split; [exact Hs|]. split; [exact Hw|].
  exact (parseMethod_plain_name (G:=MoreSamples.page) "alert" Hs Hw).
Defined.
End DirectMoreSamples.

(** ** The Manager: how the operations agree *)

Section ManagerAgreement.
Context {F : Framework}.
Import Manager.

(** X15: for something that is registered, removing it by its id and
    removing it by the object itself are the same operation: the same
    result and the same world, for providers and for transactions. *)
Theorem remove_by_id_or_by_object :
  (∀ p w, Collection.get (getId p) (providers w) = some p ->
          removeProvider (ProviderId (getId p)) w
          = removeProvider (ProviderInstance p) w)
  ∧ (∀ t w, Collection.get (getId t) (transactions w) = some t ->
            removeTransaction (TransactionId (getId t)) w
            = removeTransaction (TransactionInstance t) w).
Proof.
  split.
  - intros p w Hg. unfold removeProvider, bind, gets, ret. simpl. by rewrite Hg.
  - intros t w Hg. unfold removeTransaction, getTransaction, bind, gets, ret.
    simpl. by rewrite Hg.
Qed.

Lemma replace_entry_same {A} `{EqDecision A} k (x : A) l :
  Collection.lookup_entry k l = some x -> Collection.replace_entry k x l = l.
Proof.
  induction l as [|[k0 y] l IH]; simpl; [done|].
  destruct (decide (k0 = k)) as [->|Hne]; intros Hl.
  - by injection Hl as ->.
  - by rewrite IH.
Qed.

Lemma add_twice {A} `{EqDecision A} (x : A) (c : Collection.t A) :
  Collection.add x (Collection.add x c) = Collection.add x c.
Proof.
  pose proof (get_add x c) as Hg. pose proof (get_in_keys _ _ _ Hg) as Hk.
  unfold Collection.add at 1. simpl Collection.keyFn.
  rewrite decide_True by done.
  rewrite (replace_entry_same _ _ _ Hg). reflexivity.
Qed.

(** X16: adding a transaction that has just been added changes nothing:
    the collection keeps the one entry, and the world after the second
    [addTransaction] is the world after the first. *)
Theorem addTransaction_twice t w :
  exec (addTransaction t) (exec (addTransaction t) w)
  = exec (addTransaction t) w
  ∧ result (addTransaction t) (exec (addTransaction t) w) = inr t.
Proof.
  split; [|done]. destruct w as [tx pv st cr cs].
  unfold exec, addTransaction. run_m. by rewrite add_twice.
Qed.
End ManagerAgreement.
